(** * LLM diagram processor: block detection and syntax repair

    A shallow embedding of [CodeBlockDetector] and [SyntaxValidator] from
    [llm_diagram_processor.py], together with the part of Python's [str] and
    [re] behaviour those two classes rely on, and of what
    [LLMOutputProcessor] does with their results: the loop of [process]
    with the dispatch of [DiagramRenderer.render], the Markdown document
    and the escaping of HTML.

    Modelling conventions.
    - A Python [str] is a [list ascii]; the development covers ASCII text.
      Characters with code 128 and above are carried along as ordinary
      characters that are neither whitespace nor word characters and have
      no case.
    - Offsets ([start_pos], [end_pos], match positions) are [nat].
    - Regular expressions are embedded as syntax trees and run by a
      backtracking matcher written in continuation-passing style, which
      yields the leftmost match with Python's priority order.
    - The three private renderers, which write files and run external
      tools, are parameters of the pipeline: what they return is taken as
      given.
    - The embedding is made of total functions.  [Raising] holds the
      repairs once more with the exceptions of Python, and the two are
      shown to agree. *)

From Stdlib Require Import Ascii String DecimalString DecimalNat.
From Stdlib Require Import List Arith ZArith Lia Bool Sorted.
Import ListNotations.

Open Scope list_scope.
Open Scope nat_scope.

(* ================================================================= *)
(** ** Python strings *)

Definition str := list ascii.

Definition nl : ascii := ascii_of_nat 10.

Definition dquote : ascii := ascii_of_nat 34.

(** Reads a literal the way Python reads a (non raw) string literal of the
    source: the two characters backslash-n stand for a newline. *)
Fixpoint unescape (s : str) : str :=
  match s with
  | [] => []
  | c :: s' =>
      match s' with
      | d :: s'' =>
          if (Ascii.eqb c "\"%char && Ascii.eqb d "n"%char)%bool
          then nl :: unescape s''
          else c :: unescape s'
      | [] => [c]
      end
  end.

Definition py (s : string) : str := unescape (list_ascii_of_string s).

Definition str_eqb (a b : str) : bool :=
  if list_eq_dec ascii_dec a b then true else false.

Definition between (lo hi n : nat) : bool := (lo <=? n) && (n <=? hi).

(** [str.isspace] on one character: tab, newline, vertical tab, form feed,
    carriage return, the four separators 28..31, and space. *)
Definition isspace (c : ascii) : bool :=
  let n := nat_of_ascii c in between 9 13 n || between 28 32 n.

(** The class [\w]: letters, digits and underscore. *)
Definition isword (c : ascii) : bool :=
  let n := nat_of_ascii c in
  between 48 57 n || between 65 90 n || between 97 122 n || (n =? 95).

Definition lower_char (c : ascii) : ascii :=
  let n := nat_of_ascii c in
  if between 65 90 n then ascii_of_nat (n + 32) else c.

(** [s.lower()] *)
Definition lower (s : str) : str := map lower_char s.

Fixpoint lstrip (s : str) : str :=
  match s with
  | [] => []
  | c :: s' => if isspace c then lstrip s' else s
  end.

Definition rstrip (s : str) : str := rev (lstrip (rev s)).

(** [s.strip()] *)
Definition strip (s : str) : str := lstrip (rstrip s).

(** [s.startswith(p)] *)
Fixpoint startswith (s p : str) {struct p} : bool :=
  match p, s with
  | [], _ => true
  | _ :: _, [] => false
  | a :: p', c :: s' => Ascii.eqb a c && startswith s' p'
  end.

(** [s.endswith(p)] *)
Definition endswith (s p : str) : bool := startswith (rev s) (rev p).

(** [p in s], the substring test. *)
Fixpoint contains (p s : str) : bool :=
  startswith s p ||
  match s with
  | [] => false
  | _ :: s' => contains p s'
  end.

(** [s.count(c)] for a one-character [c]. *)
Definition count (c : ascii) (s : str) : nat :=
  length (filter (Ascii.eqb c) s).

(** [s.split(sep)] for a one-character [sep]. *)
Fixpoint split (sep : ascii) (s : str) : list str :=
  match s with
  | [] => [[]]
  | c :: s' =>
      if Ascii.eqb c sep then [] :: split sep s'
      else match split sep s' with
           | l :: ls => (c :: l) :: ls
           | [] => [[c]]
           end
  end.

(** [sep.join(ls)] *)
Fixpoint join (sep : str) (ls : list str) : str :=
  match ls with
  | [] => []
  | l :: ls' =>
      match ls' with
      | [] => l
      | _ :: _ => l ++ sep ++ join sep ls'
      end
  end.

(** [s[a:b]] for [0 <= a] and [0 <= b]. *)
Definition slice (s : str) (a b : nat) : str := firstn (b - a) (skipn a s).

(** [str(n)] for a non-negative integer. *)
Definition str_of_nat (n : nat) : str :=
  list_ascii_of_string (NilEmpty.string_of_uint (Nat.to_uint n)).

(** [enumerate(l)] *)
Definition enumerate {A : Type} (l : list A) : list (nat * A) :=
  combine (seq 0 (length l)) l.

(* ================================================================= *)
(** ** The fragment of [re] used by the processor *)

Module Re.

(** Pattern syntax.  Repetition occurs in the source patterns only over
    single-character classes ([\w+], [\s*], [[^>]*], [.*?], ...), which is
    what [Rep] offers; [Alt] is ordered choice, so [r?] is [Alt r Eps]. *)
Inductive regex : Type :=
| Eps
| Bos                                   (* ^ without MULTILINE *)
| Chr (c : ascii)                       (* a literal character *)
| Cls (p : ascii -> bool)               (* a character class *)
| Seq (r1 r2 : regex)
| Alt (r1 r2 : regex)
| Rep (greedy : bool) (min : nat) (p : ascii -> bool)
| Grp (n : nat) (r : regex).            (* capturing group number n *)

Definition Opt (r : regex) : regex := Alt r Eps.

Fixpoint seqs (rs : list regex) : regex :=
  match rs with
  | [] => Eps
  | r :: rs' =>
      match rs' with
      | [] => r
      | _ :: _ => Seq r (seqs rs')
      end
  end.

Definition lit (s : str) : regex := seqs (map Chr s).

Definition any_char : ascii -> bool := fun _ => true.   (* . under DOTALL *)

(** Group spans recorded so far, most recent first. *)
Definition groups := list (nat * (nat * nat)).

Fixpoint lookup (n : nat) (g : groups) : option (nat * nat) :=
  match g with
  | [] => None
  | (m, sp) :: g' => if n =? m then Some sp else lookup n g'
  end.

(** A continuation receives the unread input, its offset and the groups. *)
Definition cont := str -> nat -> groups -> option (nat * groups).

Definition accept : cont := fun _ pos g => Some (pos, g).

(** A match object: [m.start()], [m.end()] and the group spans. *)
Record Match : Type := mkMatch {
  m_start : nat;
  m_end : nat;
  m_groups : groups
}.

(** [m.group(0)] *)
Definition group0 (text : str) (m : Match) : str :=
  slice text (m_start m) (m_end m).

(** [m.group(n)]; [None] when the group took no part in the match. *)
Definition group (text : str) (m : Match) (n : nat) : option str :=
  match lookup n (m_groups m) with
  | Some (a, b) => Some (slice text a b)
  | None => None
  end.

Section Matcher.

(** [re.IGNORECASE] *)
Variable ic : bool.

Definition chr_matches (c x : ascii) : bool :=
  if ic then Ascii.eqb (lower_char c) (lower_char x) else Ascii.eqb c x.

(** Greedy repetition: take a character first, give it back on failure. *)
Fixpoint rep_greedy (p : ascii -> bool) (min : nat) (s : str) (pos : nat)
    (g : groups) (k : cont) : option (nat * groups) :=
  let stop := match min with 0 => k s pos g | S _ => None end in
  match s with
  | [] => stop
  | x :: s' =>
      if p x then
        match rep_greedy p (pred min) s' (S pos) g k with
        | Some m => Some m
        | None => stop
        end
      else stop
  end.

(** Lazy repetition: try to stop first, take a character on failure. *)
Fixpoint rep_lazy (p : ascii -> bool) (min : nat) (s : str) (pos : nat)
    (g : groups) (k : cont) : option (nat * groups) :=
  let more :=
    match s with
    | [] => None
    | x :: s' => if p x then rep_lazy p (pred min) s' (S pos) g k else None
    end in
  match min with
  | 0 => match k s pos g with
         | Some m => Some m
         | None => more
         end
  | S _ => more
  end.

Fixpoint rmatch (r : regex) (s : str) (pos : nat) (g : groups) (k : cont)
    : option (nat * groups) :=
  match r with
  | Eps => k s pos g
  | Bos => if pos =? 0 then k s pos g else None
  | Chr c =>
      match s with
      | x :: s' => if chr_matches c x then k s' (S pos) g else None
      | [] => None
      end
  | Cls p =>
      match s with
      | x :: s' => if p x then k s' (S pos) g else None
      | [] => None
      end
  | Seq r1 r2 =>
      rmatch r1 s pos g (fun s' pos' g' => rmatch r2 s' pos' g' k)
  | Alt r1 r2 =>
      match rmatch r1 s pos g k with
      | Some m => Some m
      | None => rmatch r2 s pos g k
      end
  | Rep true min p => rep_greedy p min s pos g k
  | Rep false min p => rep_lazy p min s pos g k
  | Grp n r1 =>
      rmatch r1 s pos g (fun s' pos' g' => k s' pos' ((n, (pos, pos')) :: g'))
  end.

(** The match starting exactly at offset [pos], where [s] is the input
    from [pos] on. *)
Definition match_at (r : regex) (s : str) (pos : nat) : option Match :=
  match rmatch r s pos [] accept with
  | Some (e, g) => Some (mkMatch pos e g)
  | None => None
  end.

(** The scan behind [re.finditer]: [s] is the input from [pos] on and
    [skip] counts the characters still covered by the previous match.
    After a match the search resumes at its end (one character further
    on after an empty match). *)
Fixpoint scan (r : regex) (s : str) (pos skip : nat) : list Match :=
  match skip with
  | S skip' =>
      match s with
      | [] => []
      | _ :: s' => scan r s' (S pos) skip'
      end
  | 0 =>
      match match_at r s pos with
      | Some m =>
          m :: match s with
               | [] => []
               | _ :: s' => scan r s' (S pos) (m_end m - pos - 1)
               end
      | None =>
          match s with
          | [] => []
          | _ :: s' => scan r s' (S pos) 0
          end
      end
  end.

(** [re.finditer(r, text)] *)
Definition finditer (r : regex) (text : str) : list Match := scan r text 0 0.

(** [re.match(r, text)] *)
Definition re_match (r : regex) (text : str) : option Match :=
  match_at r text 0.

(** The pieces of [re.split(r, text)] for a pattern that is one capturing
    group: the text between matches alternating with the separators. *)
Fixpoint split_pieces (text : str) (ms : list Match) (last : nat)
    : list str :=
  match ms with
  | [] => [slice text last (length text)]
  | m :: ms' =>
      slice text last (m_start m) :: group0 text m
        :: split_pieces text ms' (m_end m)
  end.

Definition re_split (r : regex) (text : str) : list str :=
  split_pieces text (finditer r text) 0.

(** [re.sub(r, '', text)]: the text with every match deleted. *)
Fixpoint delete_pieces (text : str) (ms : list Match) (last : nat) : str :=
  match ms with
  | [] => slice text last (length text)
  | m :: ms' => slice text last (m_start m) ++ delete_pieces text ms' (m_end m)
  end.

Definition re_sub_empty (r : regex) (text : str) : str :=
  delete_pieces text (finditer r text) 0.

End Matcher.

End Re.

Import Re.

(* ================================================================= *)
(** ** CodeBlockDetector *)

(** The dict built for every detected block. *)
Record Block : Type := mkBlock {
  start_pos : nat;
  end_pos : nat;
  language : str;
  code : str;
  original_text : str;
  format : str
}.

Definition word_tag : regex := Opt (Grp 1 (Rep true 1 isword)).   (* (\w+)? *)

Definition body : regex := Grp 2 (Rep false 0 any_char).          (* (.*?) *)

Definition spaces : regex := Rep true 0 isspace.                  (* \s* *)

Definition not_gt : ascii -> bool := fun c => negb (Ascii.eqb c ">"%char).

(** [```(\w+)?\n(.*?)```] and [~~~(\w+)?\n(.*?)~~~] *)
Definition fence_pattern (fence : str) : regex :=
  seqs [lit fence; word_tag; Chr nl; body; lit fence].

Definition standard_patterns : list regex :=
  [fence_pattern (py "```"); fence_pattern (py "~~~")].

(** [<code[^>]*>\s*(\w+)?\s*\n(.*?)</code>] and the same with [pre] *)
Definition html_pattern (tag : str) : regex :=
  seqs [lit (py "<" ++ tag); Rep true 0 not_gt; Chr ">"%char; spaces;
        word_tag; spaces; Chr nl; body; lit (py "</" ++ tag ++ py ">")].

(** [\[code(?:\s+lang=Q?(\w+)Q?)?\](.*?)\[/code\]], where Q stands for the
    double quote character. *)
Definition bbcode_pattern : regex :=
  seqs [lit (py "[code");
        Opt (seqs [Rep true 1 isspace; lit (py "lang="); Opt (Chr dquote);
                   Grp 1 (Rep true 1 isword); Opt (Chr dquote)]);
        Chr "]"%char; body; lit (py "[/code]")].

Definition nonstandard_patterns : list regex :=
  [html_pattern (py "code"); bbcode_pattern; html_pattern (py "pre")].

(** [any(keyword in s for keyword in keywords)] *)
Definition any_in (keywords : list str) (s : str) : bool :=
  existsb (fun keyword => contains keyword s) keywords.

Definition _infer_language (code : str) : str :=
  let code_lower := strip (lower code) in
  (* Mermaid keywords *)
  if any_in [py "graph"; py "sequencediagram"; py "classDiagram";
             py "statediagram"; py "erdiagram"; py "gantt";
             py "pie"; py "flowchart"; py "journey"] code_lower
  then py "mermaid"
  (* PlantUML keywords *)
  else if any_in [py "@startuml"; py "@enduml"; py "actor";
                  py "participant"; py "class"; py "interface"] code_lower
  then py "plantuml"
  (* Graphviz/DOT *)
  else if any_in [py "digraph"; py "graph"; py "subgraph"; py "node";
                  py "edge"] code_lower
          && (contains (py "->") code || contains (py "--") code)
  then py "dot"
  else py "unknown".

(** [sum(1 for c in line if c in '[]{}()->=|:;*+#@')] *)
Definition special_chars (line : str) : nat :=
  length (filter (fun c => existsb (Ascii.eqb c) (py "[]{}()->=|:;*+#@")) line).

(** [ratio > 0.2] with [ratio = special_chars / total_chars] is decided on
    the integers as [5 * special_chars > total_chars]; the two agree for
    every line shorter than 2^50 characters, where the float quotient
    cannot round down onto the float nearest to 0.2. *)
Definition _is_gibberish_line (line : str) : bool :=
  match strip line with
  | [] => false
  | _ :: _ =>
      let total_chars := length (strip line) in
      if total_chars =? 0 then false
      else total_chars <? 5 * special_chars line
  end.

(** The local variables of the loop of [_detect_gibberish_blocks]. *)
Record gib_state : Type := mkGib {
  gib_blocks : list Block;
  current_block : list str;
  start_line : Z;
  gibberish_count : nat
}.

(** [sum(len(lines[j]) + 1 for j in range(start_line))] *)
Definition line_offset (lines : list str) (start_line : Z) : nat :=
  list_sum (map (fun j => length (nth j lines []) + 1)
                (seq 0 (Z.to_nat start_line))).

(** One iteration of the loop over [enumerate(lines)]. *)
Definition gib_step (lines : list str) (st : gib_state) (il : nat * str)
    : gib_state :=
  let (i, line) := il in
  if _is_gibberish_line line then
    mkGib (gib_blocks st)
          (current_block st ++ [line])
          (match current_block st with
           | [] => Z.of_nat i
           | _ :: _ => start_line st
           end)
          (gibberish_count st + 1)
  else
    let blocks :=
      if (3 <=? length (current_block st)) && (2 <=? gibberish_count st) then
        let code := join [nl] (current_block st) in
        let start_pos := line_offset lines (start_line st) in
        let end_pos := start_pos + length code in
        gib_blocks st ++
          [mkBlock start_pos end_pos (_infer_language code) code code
                   (py "gibberish_detected")]
      else gib_blocks st in
    mkGib blocks [] (-1)%Z 0.

Definition _detect_gibberish_blocks (text : str) : list Block :=
  let lines := split nl text in
  gib_blocks (fold_left (gib_step lines) (enumerate lines)
                        (mkGib [] [] (-1)%Z 0)).

(** The key [(x['start_pos'], -x['end_pos'])] and the order of its tuples. *)
Definition sort_key (b : Block) : Z * Z :=
  (Z.of_nat (start_pos b), (- Z.of_nat (end_pos b))%Z).

Definition key_leb (a b : Z * Z) : bool :=
  ((fst a <? fst b) || ((fst a =? fst b) && (snd a <=? snd b)))%Z.

(** [blocks.sort(key=...)]: a stable sort, here by insertion. *)
Fixpoint insert_block (x : Block) (l : list Block) : list Block :=
  match l with
  | [] => [x]
  | y :: l' =>
      if key_leb (sort_key x) (sort_key y) then x :: l
      else y :: insert_block x l'
  end.

Definition sort_blocks (blocks : list Block) : list Block :=
  fold_right insert_block [] blocks.

(** The body of the sweep; [result] is never empty, so [result[-1]] is
    [last result block] whatever the default. *)
Definition sweep (result : list Block) (block : Block) : list Block :=
  let last_block := last result block in
  if end_pos last_block <=? start_pos block then result ++ [block]
  else if end_pos last_block <? end_pos block
       then removelast result ++ [block]
       else result.

Definition _deduplicate_blocks (blocks : list Block) : list Block :=
  match sort_blocks blocks with
  | [] => []
  | first :: rest => fold_left sweep rest [first]
  end.

(** The dict appended for one match.  Group 2 takes part in every match of
    the five patterns (lemma [patterns_record_body] below), so the default
    of [group2] is never used; [match.group(1)] is falsy when it is [None]. *)
Definition block_of_match (text fmt : str) (m : Match) : Block :=
  let group2 := match group text m 2 with Some b => b | None => [] end in
  let lang :=
    match group text m 1 with
    | Some (c :: l) => c :: l
    | _ => _infer_language group2
    end in
  mkBlock (m_start m) (m_end m) lang (strip group2) (group0 text m) fmt.

Definition detect_blocks (text : str) : list Block :=
  let blocks :=
    flat_map (fun pattern =>
                map (block_of_match text (py "standard"))
                    (finditer false pattern text))
             standard_patterns in
  let blocks := blocks ++
    flat_map (fun pattern =>
                map (block_of_match text (py "nonstandard"))
                    (finditer true pattern text))
             nonstandard_patterns in
  let blocks := blocks ++ _detect_gibberish_blocks text in
  _deduplicate_blocks blocks.

(* ================================================================= *)
(** ** SyntaxValidator *)

Definition unbalanced_issue (n : nat) : str :=
  py "Line " ++ str_of_nat n ++ py ": Unbalanced brackets - attempting to fix".

Definition missing_header_issue : str :=
  py "Missing graph type declaration - adding 'graph TD'".

Definition no_type_issue : str :=
  py "No valid diagram type found - prepending 'graph TD'".

Definition open_count (line : str) : nat :=
  count "["%char line + count "("%char line + count "{"%char line.

Definition close_count (line : str) : nat :=
  count "]"%char line + count ")"%char line + count "}"%char line.

Definition header_keywords : list str :=
  [py "graph"; py "flowchart"; py "sequencediagram"; py "classDiagram";
   py "statediagram"; py "erdiagram"; py "gantt"; py "pie"; py "journey"].

Definition guard_keywords : list str :=
  [py "graph"; py "flowchart"; py "sequencediagram"; py "classDiagram"].

Definition edge_tokens : list str :=
  [py "-->"; py "---"; py "->"; py "==>"; py "-.->"].

(** [(-->|---|->|==>|\-\.\->)] *)
Definition edge_split : regex :=
  Grp 1 (Alt (lit (py "-->")) (Alt (lit (py "---")) (Alt (lit (py "->"))
        (Alt (lit (py "==>")) (lit (py "-.->")))))).

(** The characters kept in a node id: word characters, whitespace, the six
    brackets, both quote characters, hyphen and colon; [bad_run] is the
    pattern of the source, a non-empty run of any other characters. *)
Definition node_char (c : ascii) : bool :=
  isword c || isspace c
  || existsb (Ascii.eqb c) (py "[](){}" ++ [dquote] ++ py "'-:").

Definition bad_run : regex := Rep true 1 (fun c => negb (node_char c)).

(** The cleaning of node ids on a line that holds an edge. *)
Definition clean_node_ids (line : str) : str :=
  if contains (py "-->") line || contains (py "---") line then
    concat (map (fun part =>
                   if existsb (str_eqb part) edge_tokens then part
                   else re_sub_empty false bad_run part)
                (re_split false edge_split line))
  else line.

(** The bracket fix of one line. *)
Definition balance (line : str) : str :=
  let open_brackets := open_count line in
  let close_brackets := close_count line in
  if negb (open_brackets =? close_brackets)
     && (close_brackets <? open_brackets)
  then line ++ repeat "]"%char (open_brackets - close_brackets)
  else line.

(** One iteration of the loop of [_fix_mermaid] over [enumerate(lines)];
    the state is [(issues, fixed_lines)].  The test on the arrow syntax in
    the source only runs [pass] and is left out. *)
Definition fix_mermaid_line (st : list str * list str) (il : nat * str)
    : list str * list str :=
  let (issues, fixed_lines) := st in
  let (i, line0) := il in
  let issues :=
    if negb (open_count line0 =? close_count line0)
    then issues ++ [unbalanced_issue (i + 1)] else issues in
  let line := balance line0 in
  let missing := (i =? 0) && negb (any_in header_keywords (lower line)) in
  let issues := if missing then issues ++ [missing_header_issue] else issues in
  let fixed_lines :=
    if missing then fixed_lines ++ [py "graph TD"] else fixed_lines in
  (issues, fixed_lines ++ [clean_node_ids line]).

Definition _fix_mermaid (code : str) : str * list str :=
  let lines := split nl code in
  let (issues, fixed_lines) :=
    fold_left fix_mermaid_line (enumerate lines) ([], []) in
  let fixed_code := join [nl] fixed_lines in
  (* Ensure proper structure *)
  if negb (any_in guard_keywords (firstn 50 (lower fixed_code)))
  then (py "graph TD\n" ++ fixed_code, issues ++ [no_type_issue])
  else (fixed_code, issues).

Definition _fix_plantuml (code : str) : str * list str :=
  let issues := [] in
  let (code, issues) :=
    if negb (startswith (strip code) (py "@startuml"))
    then (py "@startuml\n" ++ code, issues ++ [py "Missing @startuml tag - adding"])
    else (code, issues) in
  let (code, issues) :=
    if negb (endswith (strip code) (py "@enduml"))
    then (code ++ py "\n@enduml", issues ++ [py "Missing @enduml tag - adding"])
    else (code, issues) in
  (code, issues).

(** [^\s*(di)?graph\s+\w*\s*\{] *)
Definition dot_header : regex :=
  seqs [Bos; spaces; Opt (Grp 1 (lit (py "di"))); lit (py "graph");
        Rep true 1 isspace; Rep true 0 isword; spaces; Chr "{"%char].

Definition _fix_dot (code : str) : str * list str :=
  let issues := [] in
  let (code, issues) :=
    match re_match true dot_header code with
    | None => (py "digraph G {\n" ++ code,
               issues ++ [py "Missing graph declaration - adding 'digraph G {'"])
    | Some _ => (code, issues)
    end in
  let (code, issues) :=
    if negb (endswith (strip code) (py "}"))
    then (code ++ py "\n}", issues ++ [py "Missing closing brace - adding"])
    else (code, issues) in
  (code, issues).

Definition validate_and_fix (code language : str) : str * list str :=
  if str_eqb language (py "mermaid") then _fix_mermaid code
  else if str_eqb language (py "plantuml") then _fix_plantuml code
  else if str_eqb language (py "dot") then _fix_dot code
  else (code, []).

(* ================================================================= *)
(** ** SyntaxValidator, with its exceptions *)

(** The repairs once more, this time with the exceptions of Python.  The
    operations on [str] values that the repairs use ([split], [count],
    [lower], [strip], [startswith], [endswith], [in], [+], [*], slicing,
    [join] of strings) raise on no string, and [re.match], [re.split] and
    [re.sub] raise on no string either.  What [re.split] returns is not a
    list of strings, though: for a pattern with a capturing group it holds
    [m.group(1)] of every match, which is [None] when the group took no
    part in the match, and [re.sub] raises [TypeError] when it is handed
    [None]. *)
Inductive exn : Type :=
| TypeError.

Inductive result (A : Type) : Type :=
| Ok (a : A)
| Raise (e : exn).

Arguments Ok {A} a.
Arguments Raise {A} e.

Module Raising.

Definition bind {A B : Type} (r : result A) (f : A -> result B) : result B :=
  match r with
  | Ok a => f a
  | Raise e => Raise e
  end.

Notation "x <- r ;; k" := (bind r (fun x => k))
  (at level 61, r at next level, right associativity).

(** A [for] loop that threads a state: the first exception ends it. *)
Fixpoint for_each {S A : Type} (f : S -> A -> result S) (l : list A)
    (st : S) : result S :=
  match l with
  | [] => Ok st
  | a :: l' => st' <- f st a ;; for_each f l' st'
  end.

(** [[f(x) for x in l]], up to the first exception. *)
Fixpoint for_all {A B : Type} (f : A -> result B) (l : list A)
    : result (list B) :=
  match l with
  | [] => Ok []
  | a :: l' => b <- f a ;; bs <- for_all f l' ;; Ok (b :: bs)
  end.

(** The pieces of [re.split(r, text)] for a pattern with one capturing
    group, number 1: the text between the matches alternating with
    [m.group(1)]. *)
Fixpoint split_pieces (text : str) (ms : list Match) (last : nat)
    : list (option str) :=
  match ms with
  | [] => [Some (slice text last (length text))]
  | m :: ms' =>
      Some (slice text last (m_start m)) :: group text m 1
        :: split_pieces text ms' (m_end m)
  end.

Definition re_split (ic : bool) (r : regex) (text : str)
    : list (option str) :=
  split_pieces text (finditer ic r text) 0.

(** [re.sub(r, '', string)] *)
Definition re_sub_empty (ic : bool) (r : regex) (string : option str)
    : result str :=
  match string with
  | Some s => Ok (Re.re_sub_empty ic r s)
  | None => Raise TypeError
  end.

(** One iteration of the loop over [parts]: the value appended to
    [cleaned_parts].  [None] is in no list of strings. *)
Definition clean_part (part : option str) : result str :=
  match part with
  | Some p =>
      if existsb (str_eqb p) edge_tokens then Ok p
      else re_sub_empty false bad_run part
  | None => re_sub_empty false bad_run part
  end.

Definition clean_node_ids (line : str) : result str :=
  if contains (py "-->") line || contains (py "---") line then
    cleaned_parts <- for_all clean_part (re_split false edge_split line) ;;
    Ok (concat cleaned_parts)
  else Ok line.

Definition fix_mermaid_line (st : list str * list str) (il : nat * str)
    : result (list str * list str) :=
  let (issues, fixed_lines) := st in
  let (i, line0) := il in
  let issues :=
    if negb (open_count line0 =? close_count line0)
    then issues ++ [unbalanced_issue (i + 1)] else issues in
  let line := balance line0 in
  let missing := (i =? 0) && negb (any_in header_keywords (lower line)) in
  let issues := if missing then issues ++ [missing_header_issue] else issues in
  let fixed_lines :=
    if missing then fixed_lines ++ [py "graph TD"] else fixed_lines in
  line <- clean_node_ids line ;;
  Ok (issues, fixed_lines ++ [line]).

Definition _fix_mermaid (code : str) : result (str * list str) :=
  let lines := split nl code in
  st <- for_each fix_mermaid_line (enumerate lines) ([], []) ;;
  let (issues, fixed_lines) := st : list str * list str in
  let fixed_code := join [nl] fixed_lines in
  (* Ensure proper structure *)
  if negb (any_in guard_keywords (firstn 50 (lower fixed_code)))
  then Ok (py "graph TD\n" ++ fixed_code, issues ++ [no_type_issue])
  else Ok (fixed_code, issues).

(** [_fix_plantuml] and [_fix_dot] hold no operation that can raise. *)
Definition _fix_plantuml (code : str) : result (str * list str) :=
  Ok (_fix_plantuml code).

Definition _fix_dot (code : str) : result (str * list str) :=
  Ok (_fix_dot code).

Definition validate_and_fix (code language : str)
    : result (str * list str) :=
  if str_eqb language (py "mermaid") then _fix_mermaid code
  else if str_eqb language (py "plantuml") then _fix_plantuml code
  else if str_eqb language (py "dot") then _fix_dot code
  else Ok (code, []).

End Raising.

(* ================================================================= *)
(** ** DiagramRenderer and LLMOutputProcessor *)

(** The dict kept for every processed block; its key [issues] is
    [pb_issues] here. *)
Record Processed : Type := mkProcessed {
  original : Block;
  fixed_code : str;
  pb_issues : list str;
  rendered_path : option str
}.

(** The dict [stats]; its key [issues] is [stats_issues] here. *)
Record Stats : Type := mkStats {
  total_blocks : nat;
  validated_blocks : nat;
  fixed_blocks : nat;
  rendered_blocks : nat;
  failed_blocks : nat;
  stats_issues : list str
}.

(** The truth value of an [Optional[str]]: [None] and the empty string are
    false. *)
Definition truthy (p : option str) : bool :=
  match p with
  | Some (_ :: _) => true
  | _ => false
  end.

Section Pipeline.

(** The three private renderers write files and run external tools.  What
    they return is taken as given: the result for the block of index [n],
    the code and the output format, with [None] also when they raise,
    since [render] catches every exception and returns [None]. *)
Variable _render_mermaid : nat -> str -> str -> option str.
Variable _render_plantuml : nat -> str -> str -> option str.
Variable _render_dot : nat -> str -> str -> option str.

(** [self.output_format] *)
Variable output_format : str.

Definition render (n : nat) (code language : str) : option str :=
  if str_eqb language (py "mermaid") then _render_mermaid n code output_format
  else if str_eqb language (py "plantuml")
       then _render_plantuml n code output_format
  else if str_eqb language (py "dot") then _render_dot n code output_format
  else None.

(** [f"Block {idx+1}: {issue}"] *)
Definition block_issue (idx : nat) (issue : str) : str :=
  py "Block " ++ str_of_nat (idx + 1) ++ py ": " ++ issue.

(** One iteration of the loop of [process] over [enumerate(blocks)]; the
    state is [(stats, processed_blocks)].  The calls of [print] are left
    out. *)
Definition process_block (st : Stats * list Processed) (ib : nat * Block)
    : Stats * list Processed :=
  let (stats, processed_blocks) := st in
  let (idx, block) := ib in
  (* Step 2: Validate and fix syntax *)
  let (fixed_code, issues) :=
    validate_and_fix (code block) (language block) in
  let validated := validated_blocks stats + 1 in
  let fixed :=
    match issues with
    | [] => fixed_blocks stats
    | _ :: _ => fixed_blocks stats + 1
    end in
  let all_issues :=
    match issues with
    | [] => stats_issues stats
    | _ :: _ => stats_issues stats ++ map (block_issue idx) issues
    end in
  (* Step 3: Render diagram *)
  let '(rendered_path, rendered, failed) :=
    if negb (str_eqb (language block) (py "unknown")) then
      let rendered_path := render idx fixed_code (language block) in
      if truthy rendered_path
      then (rendered_path, rendered_blocks stats + 1, failed_blocks stats)
      else (rendered_path, rendered_blocks stats, failed_blocks stats + 1)
    else (None, rendered_blocks stats, failed_blocks stats + 1) in
  (mkStats (total_blocks stats) validated fixed rendered failed all_issues,
   processed_blocks ++ [mkProcessed block fixed_code issues rendered_path]).

(** [process] up to the document: the statistics it returns and the
    [processed_blocks] that it hands to [_generate_output]. *)
Definition process (input_text : str) : Stats * list Processed :=
  let blocks := detect_blocks input_text in
  fold_left process_block (enumerate blocks)
            (mkStats (length blocks) 0 0 0 0 [], []).

End Pipeline.

(** [sorted(blocks, key=lambda x: x['original']['start_pos'])], a stable
    sort. *)
Fixpoint insert_by_start (x : Processed) (l : list Processed)
    : list Processed :=
  match l with
  | [] => [x]
  | y :: l' =>
      if start_pos (original x) <=? start_pos (original y) then x :: l
      else y :: insert_by_start x l'
  end.

Definition sorted_by_start (blocks : list Processed) : list Processed :=
  fold_right insert_by_start [] blocks.

(** [f"\n<!-- Fixed {len(block_data['issues'])} issue(s) -->\n"] and the
    fenced block of the fixed code. *)
Definition fixed_comment (block_data : Processed) : str :=
  py "\n<!-- Fixed " ++ str_of_nat (length (pb_issues block_data))
    ++ py " issue(s) -->\n".

Definition fenced_code (block_data : Processed) : str :=
  py "```" ++ language (original block_data) ++ [nl]
    ++ fixed_code block_data ++ py "\n```\n".

(** One iteration of the loop of [_generate_markdown_output]; the state is
    [(result_parts, last_pos)]. *)
Definition markdown_step (original_text : str) (st : list str * nat)
    (block_data : Processed) : list str * nat :=
  let (result_parts, last_pos) := st in
  let block := original block_data in
  (* Add text before this block *)
  let result_parts :=
    result_parts ++ [slice original_text last_pos (start_pos block)] in
  (* Add fixed code block *)
  let result_parts :=
    match pb_issues block_data with
    | [] => result_parts
    | _ :: _ => result_parts ++ [fixed_comment block_data]
    end in
  let result_parts := result_parts ++ [fenced_code block_data] in
  (result_parts, end_pos block).

(** The text that [_generate_markdown_output] writes to [output_path]. *)
Definition _generate_markdown_output (original_text : str)
    (blocks : list Processed) : str :=
  let sorted_blocks := sorted_by_start blocks in
  let (result_parts, last_pos) :=
    fold_left (markdown_step original_text) sorted_blocks ([], 0) in
  (* Add remaining text *)
  concat (result_parts ++ [skipn last_pos original_text]).

(** [s.replace(old, new)] for a one-character [old]. *)
Definition replace_char (old : ascii) (new s : str) : str :=
  flat_map (fun c => if Ascii.eqb c old then new else [c]) s.

(** [text.replace('&', '&amp;').replace('<', '&lt;').replace('>', '&gt;')] *)
Definition _escape_html (text : str) : str :=
  replace_char ">"%char (py "&gt;")
    (replace_char "<"%char (py "&lt;")
       (replace_char "&"%char (py "&amp;") text)).

(* ================================================================= *)
(** ** Vocabulary of the properties *)

(** The least number of characters a match of the pattern consumes. *)
Fixpoint min_len (r : regex) : nat :=
  match r with
  | Eps | Bos => 0
  | Chr _ | Cls _ => 1
  | Seq r1 r2 => min_len r1 + min_len r2
  | Alt r1 r2 => Nat.min (min_len r1) (min_len r2)
  | Rep _ min _ => min
  | Grp _ r1 => min_len r1
  end.

(** Whether every match of the pattern records group [i]. *)
Fixpoint sets_group (i : nat) (r : regex) : bool :=
  match r with
  | Eps | Bos | Chr _ | Cls _ | Rep _ _ _ => false
  | Seq r1 r2 => sets_group i r1 || sets_group i r2
  | Alt r1 r2 => sets_group i r1 && sets_group i r2
  | Grp n r1 => (i =? n) || sets_group i r1
  end.

(** The continuation [k] is entered after at least [lo] characters of [s],
    with groups that satisfy [P], and yields [res]. *)
Definition reaches (k : cont) (s : str) (pos lo : nat)
    (P : groups -> Prop) (res : nat * groups) : Prop :=
  exists n g', lo <= n /\ n <= length s /\ P g' /\
               k (skipn n s) (pos + n) g' = Some res.

(** Group [i] is recorded in [g'] when the pattern always records it
    ([known]) or [g] held it already. *)
Definition keeps (i : nat) (known : bool) (g g' : groups) : Prop :=
  known = true \/ lookup i g <> None -> lookup i g' <> None.

(** Matches that follow one another from [last] on, inside the text. *)
Fixpoint tiled (text : str) (ms : list Match) (last : nat) : Prop :=
  match ms with
  | [] => True
  | m :: ms' =>
      last <= m_start m /\ m_start m <= m_end m /\
      m_end m <= length text /\ tiled text ms' (m_end m)
  end.

(** The pattern after the optional tag: the newline, the body and the
    closing fence. *)
Definition fence_tail (fence : str) : regex :=
  seqs [Chr nl; body; lit fence].

(** A block whose offsets delimit a non-empty part of the text, which is
    its [original_text]. *)
Definition well_spanned (text : str) (b : Block) : Prop :=
  start_pos b < end_pos b /\ end_pos b <= length text /\
  slice text (start_pos b) (end_pos b) = original_text b.

(** The lines with their newline, and the offset at which the line after
    them begins. *)
Definition with_nl (A : list str) : str :=
  concat (map (fun l => l ++ [nl]) A).

Definition offset (A : list str) : nat :=
  list_sum (map (fun l => length l + 1) A).

(** The state of the loop of [_detect_gibberish_blocks] after the lines
    [done] of [lines]: the blocks found so far are well spanned in the
    text, and the pending run is the end of [done], begun at [start_line]. *)
Definition gib_inv (lines done : list str) (st : gib_state) : Prop :=
  Forall (well_spanned (join [nl] lines)) (gib_blocks st) /\
  exists A, done = A ++ current_block st /\
            (current_block st <> [] -> start_line st = Z.of_nat (length A)).

(** The order of the sort keys, the relation between a block and a later
    one, and the blocks with a non-empty span. *)
Definition key_le (a b : Block) : Prop :=
  key_leb (sort_key a) (sort_key b) = true.

Definition before (a b : Block) : Prop := end_pos a <= start_pos b.

Definition nonempty_span (b : Block) : Prop := start_pos b < end_pos b.

(** The state of the sweep: the kept blocks are in order, each ends where
    or before the next begins, and the last of them begins no later than
    the blocks still to come. *)
Definition sweep_inv (result rest : list Block) : Prop :=
  exists init l,
    result = init ++ [l] /\
    StronglySorted before result /\
    Forall nonempty_span result /\
    Forall (fun b => start_pos l <= start_pos b) rest.

(** Whether the iteration of [_fix_mermaid] for line number [i] inserts the
    header, and what it adds to [issues] and to [fixed_lines]. *)
Definition header_missing (i : nat) (line0 : str) : bool :=
  (i =? 0) && negb (any_in header_keywords (lower (balance line0))).

Definition line_issues (il : nat * str) : list str :=
  (if negb (open_count (snd il) =? close_count (snd il))
   then [unbalanced_issue (fst il + 1)] else [])
  ++ (if header_missing (fst il) (snd il) then [missing_header_issue] else []).

Definition line_output (il : nat * str) : list str :=
  (if header_missing (fst il) (snd il) then [py "graph TD"] else [])
  ++ [clean_node_ids (balance (snd il))].

(** The repaired form of one input line. *)
Definition repaired_line (line : str) : str :=
  clean_node_ids (line ++ repeat "]"%char (open_count line - close_count line)).

(** The issues and the lines at the end of the loop of [_fix_mermaid],
    and the test of its final guard. *)
Definition loop_issues (lines : list str) : list str :=
  flat_map line_issues (enumerate lines).

Definition loop_lines (lines : list str) : list str :=
  flat_map line_output (enumerate lines).

Definition guard_fires (fixed_lines : list str) : bool :=
  negb (any_in guard_keywords (firstn 50 (lower (join [nl] fixed_lines)))).

(** Whether the header pattern of DOT is found at the start of the code. *)
Definition dot_header_found (code : str) : bool :=
  match re_match true dot_header code with
  | Some _ => true
  | None => false
  end.

(** The words that a pattern matches at an offset, whatever the priority
    among them. *)
Fixpoint matches (ic : bool) (r : regex) (pos : nat) (w : str) : Prop :=
  match r with
  | Eps => w = []
  | Bos => w = [] /\ pos = 0
  | Chr c => exists x, w = [x] /\ chr_matches ic c x = true
  | Cls p => exists x, w = [x] /\ p x = true
  | Seq r1 r2 =>
      exists w1 w2, w = w1 ++ w2 /\ matches ic r1 pos w1 /\
                    matches ic r2 (pos + length w1) w2
  | Alt r1 r2 => matches ic r1 pos w \/ matches ic r2 pos w
  | Rep _ min p => forallb p w = true /\ min <= length w
  | Grp _ r1 => matches ic r1 pos w
  end.

(** A property [G] asked of every recorded group: it holds of a pattern
    when each of its groups can only record spans with that property, and
    of recorded groups when each of their spans has it. *)
Section GroupProperty.

Variable ic : bool.
Variable text : str.
Variable G : nat -> nat * nat -> Prop.

Fixpoint groups_ok (r : regex) : Prop :=
  match r with
  | Grp n r1 =>
      (forall pos w, matches ic r1 pos w ->
                     firstn (length w) (skipn pos text) = w ->
                     G n (pos, pos + length w))
      /\ groups_ok r1
  | Seq r1 r2 | Alt r1 r2 => groups_ok r1 /\ groups_ok r2
  | _ => True
  end.

Definition groups_good (g : groups) : Prop :=
  forall n sp, lookup n g = Some sp -> G n sp.

End GroupProperty.

(** The block made of the lines [R] that follow the lines [A]. *)
Definition run_block (A R : list str) : Block :=
  mkBlock (offset A) (offset A + length (join [nl] R))
          (_infer_language (join [nl] R)) (join [nl] R) (join [nl] R)
          (py "gibberish_detected").

(** [b] is the block of a run of at least three flagged lines of [lines]
    that begins the lines or follows a line that is not flagged, and that
    a line that is not flagged follows. *)
Definition flagged_run (lines : list str) (b : Block) : Prop :=
  exists A R x rest,
    lines = A ++ R ++ x :: rest /\
    (A = [] \/ exists A' y, A = A' ++ [y] /\ _is_gibberish_line y = false) /\
    forallb _is_gibberish_line R = true /\
    3 <= length R /\
    _is_gibberish_line x = false /\
    b = run_block A R.

(** The state of the loop after the lines [done]: every block found is
    the block of such a run, and the pending run is made of the flagged
    lines at the end of [done]. *)
Definition gib_runs_inv (lines done : list str) (st : gib_state) : Prop :=
  Forall (flagged_run lines) (gib_blocks st) /\
  exists A,
    done = A ++ current_block st /\
    (A = [] \/ exists A' y, A = A' ++ [y] /\ _is_gibberish_line y = false) /\
    forallb _is_gibberish_line (current_block st) = true /\
    gibberish_count st = length (current_block st) /\
    (current_block st <> [] -> start_line st = Z.of_nat (length A)).

(** What group 1 of the five patterns can record: a non-empty run of word
    characters of the text. *)
Definition tag_span (text : str) (n : nat) (sp : nat * nat) : Prop :=
  n = 1 ->
  fst sp < snd sp /\ forallb isword (slice text (fst sp) (snd sp)) = true.

(** The escaped form of one character. *)
Definition escape_char (c : ascii) : str :=
  if Ascii.eqb c "&"%char then py "&amp;"
  else if Ascii.eqb c "<"%char then py "&lt;"
  else if Ascii.eqb c ">"%char then py "&gt;"
  else [c].

Section Entries.

Variable mermaid_tool : nat -> str -> str -> option str.
Variable plantuml_tool : nat -> str -> str -> option str.
Variable dot_tool : nat -> str -> str -> option str.
Variable output_format : str.

(** The entry of [processed_blocks] for the block of index [idx]. *)
Definition processed_of (ib : nat * Block) : Processed :=
  let (fixed_code, issues) :=
    validate_and_fix (code (snd ib)) (language (snd ib)) in
  mkProcessed (snd ib) fixed_code issues
    (if negb (str_eqb (language (snd ib)) (py "unknown"))
     then render mermaid_tool plantuml_tool dot_tool output_format
                 (fst ib) fixed_code (language (snd ib))
     else None).

End Entries.

(** The processed blocks with at least one issue, those with a rendered
    path, and the number of elements of a list that pass a test. *)
Definition has_issues (pb : Processed) : bool :=
  match pb_issues pb with
  | [] => false
  | _ :: _ => true
  end.

Definition is_rendered (pb : Processed) : bool := truthy (rendered_path pb).

Definition count_if {A : Type} (f : A -> bool) (l : list A) : nat :=
  length (filter f l).

(** The pieces [ps] with the insertions [ins] between them:
    [p0 ++ i0 ++ p1 ++ i1 ++ ... ++ pn]. *)
Fixpoint weave (ps ins : list str) : str :=
  match ps with
  | [] => []
  | p :: ps' =>
      match ins with
      | [] => p
      | i :: ins' => p ++ i ++ weave ps' ins'
      end
  end.

(** What [_generate_markdown_output] writes in the place of a block. *)
Definition markdown_piece (block_data : Processed) : str :=
  match pb_issues block_data with
  | [] => fenced_code block_data
  | _ :: _ => fixed_comment block_data ++ fenced_code block_data
  end.

(** The blocks lie in the text one after the other, from [last_pos] on. *)
Fixpoint chained (text : str) (last_pos : nat) (bs : list Block) : Prop :=
  match bs with
  | [] => True
  | b :: bs' =>
      last_pos <= start_pos b /\ start_pos b <= end_pos b /\
      end_pos b <= length text /\
      slice text (start_pos b) (end_pos b) = original_text b /\
      chained text (end_pos b) bs'
  end.

(* ================================================================= *)
(** ** Facts about the string operations *)

Lemma ascii_eqb_true (a b : ascii) : Ascii.eqb a b = true <-> a = b.
Proof. apply Ascii.eqb_eq. Qed.

Lemma str_eqb_true (a b : str) : str_eqb a b = true <-> a = b.
Proof.
  unfold str_eqb. destruct (list_eq_dec ascii_dec a b); split; congruence.
Qed.

Lemma str_eqb_false (a b : str) : str_eqb a b = false <-> a <> b.
Proof.
  unfold str_eqb. destruct (list_eq_dec ascii_dec a b); split; congruence.
Qed.

Lemma startswith_iff (s p : str) :
  startswith s p = true <-> exists b, s = p ++ b.
Proof.
  revert s. induction p as [|a p IH]; intros s; simpl.
  - split; [intros _; now exists s | reflexivity].
  - destruct s as [|c s].
    + split; [discriminate | intros [b Hb]; discriminate].
    + rewrite andb_true_iff, ascii_eqb_true, IH. split.
      * intros [-> [b ->]]. now exists b.
      * intros [b Hb]. injection Hb as -> ->. split; [reflexivity | now exists b].
Qed.

Lemma contains_iff (p s : str) :
  contains p s = true <-> exists a b, s = a ++ p ++ b.
Proof.
  induction s as [|c s IH]; simpl.
  - rewrite orb_false_r, startswith_iff. split.
    + intros [b Hb]. now exists [], b.
    + intros [a [b Hb]]. destruct a; [now exists b | discriminate].
  - rewrite orb_true_iff, startswith_iff, IH. split.
    + intros [[b Hb] | [a [b Hb]]].
      * now exists [], b.
      * exists (c :: a), b. simpl. now rewrite Hb.
    + intros [[|x a] [b Hb]].
      * left. now exists b.
      * right. injection Hb as -> ->. now exists a, b.
Qed.

Lemma contains_In (p s : str) (c : ascii) :
  contains p s = true -> In c p -> In c s.
Proof.
  rewrite contains_iff. intros [a [b ->]] Hc.
  apply in_or_app. right. apply in_or_app. now left.
Qed.

Lemma lstrip_split (s : str) :
  exists a, s = a ++ lstrip s /\ Forall (fun c => isspace c = true) a.
Proof.
  induction s as [|c s [a [Ha Hsp]]]; simpl.
  - now exists [].
  - destruct (isspace c) eqn:Hc.
    + exists (c :: a). split; [simpl; now rewrite <- Ha | now constructor].
    + now exists [].
Qed.

Lemma rstrip_split (s : str) :
  exists b, s = rstrip s ++ b /\ Forall (fun c => isspace c = true) b.
Proof.
  unfold rstrip. destruct (lstrip_split (rev s)) as [a [Ha Hsp]].
  exists (rev a). split.
  - rewrite <- rev_app_distr, <- Ha. now rewrite rev_involutive.
  - now apply Forall_rev.
Qed.

Lemma strip_split (s : str) :
  exists a b, s = a ++ strip s ++ b.
Proof.
  unfold strip. destruct (rstrip_split s) as [b [Hb _]].
  destruct (lstrip_split (rstrip s)) as [a [Ha _]].
  exists a, b. rewrite app_assoc, <- Ha. exact Hb.
Qed.

(** Leading whitespace is stripped no further than a non-space character. *)
Lemma lstrip_app_keep (a t : str) (c : ascii) :
  isspace c = false -> exists a', lstrip (a ++ c :: t) = a' ++ c :: t.
Proof.
  intros Hc. induction a as [|x a [a' IH]]; simpl.
  - rewrite Hc. now exists [].
  - destruct (isspace x).
    + now exists a'.
    + now exists (x :: a).
Qed.

Lemma rstrip_app_keep (a t : str) (c : ascii) :
  isspace c = false -> exists t', rstrip (a ++ c :: t) = a ++ c :: t'.
Proof.
  intros Hc. unfold rstrip.
  rewrite rev_app_distr. simpl. rewrite <- app_assoc. simpl.
  destruct (lstrip_app_keep (rev t) (rev a) c Hc) as [t' Ht'].
  rewrite Ht'. exists (rev t').
  rewrite rev_app_distr. simpl. rewrite rev_involutive.
  now rewrite <- app_assoc.
Qed.

(** A keyword without whitespace is found in a string exactly when it is
    found in the stripped string. *)
Lemma contains_strip (p s : str) :
  p <> [] -> Forall (fun c => isspace c = false) p ->
  contains p (strip s) = contains p s.
Proof.
  intros Hne Hp.
  apply eq_true_iff_eq. rewrite !contains_iff. split.
  - intros [a [b Hab]]. destruct (strip_split s) as [a0 [b0 Hs]].
    exists (a0 ++ a), (b ++ b0). rewrite Hs, Hab.
    now rewrite <- !app_assoc.
  - intros [a [b ->]].
    destruct p as [|c p]; [congruence|].
    assert (Hc : isspace c = false) by now inversion Hp.
    destruct (exists_last (l := c :: p)) as [q [d Hq]]; [discriminate|].
    assert (Hd : isspace d = false).
    { rewrite Forall_forall in Hp. apply Hp. rewrite Hq.
      apply in_or_app. right. now left. }
    unfold strip.
    assert (Hr : exists t', rstrip (a ++ (c :: p) ++ b) = a ++ (c :: p) ++ t').
    { rewrite Hq. rewrite <- (app_assoc q [d] b). simpl.
      rewrite app_assoc.
      destruct (rstrip_app_keep (a ++ q) b d Hd) as [t' Ht'].
      exists t'. rewrite Ht'. rewrite <- !app_assoc. reflexivity. }
    destruct Hr as [t' ->]. simpl.
    destruct (lstrip_app_keep a (p ++ t') c Hc) as [a' ->].
    now exists a', t'.
Qed.

Lemma lower_char_not_upper (x : ascii) :
  between 65 90 (nat_of_ascii (lower_char x)) = false.
Proof. destruct x as [[] [] [] [] [] [] [] []]; reflexivity. Qed.

Lemma contains_longer (a0 p b0 s : str) :
  contains (a0 ++ p ++ b0) s = true -> contains p s = true.
Proof.
  rewrite !contains_iff. intros [a [b ->]].
  exists (a ++ a0), (b0 ++ b). now rewrite <- !app_assoc.
Qed.

Lemma no_space_graph :
  Forall (fun c => isspace c = false) (py "graph").
Proof. repeat constructor. Qed.

Lemma endswith_iff (s p : str) :
  endswith s p = true <-> exists a, s = a ++ p.
Proof.
  unfold endswith. rewrite startswith_iff. split.
  - intros [b Hb]. exists (rev b).
    rewrite <- (rev_involutive s), Hb, rev_app_distr.
    now rewrite rev_involutive.
  - intros [a ->]. exists (rev a). now rewrite rev_app_distr.
Qed.

Lemma endswith_lstrip (y q : str) :
  Forall (fun c => isspace c = false) q ->
  endswith (lstrip y) q = endswith y q.
Proof.
  intros Hq. apply eq_true_iff_eq. rewrite !endswith_iff. split.
  - intros [b Hb]. destruct (lstrip_split y) as [a [Ha _]].
    exists (a ++ b). rewrite <- app_assoc, <- Hb. exact Ha.
  - intros [u ->]. destruct q as [|c q].
    + exists (lstrip (u ++ [])). symmetry. apply app_nil_r.
    + destruct (lstrip_app_keep u q c) as [a' ->]; [now inversion Hq|].
      now exists a'.
Qed.

Lemma endswith_strip (x q : str) :
  Forall (fun c => isspace c = false) q ->
  endswith (strip x) q = startswith (lstrip (rev x)) (rev q).
Proof.
  intros Hq. unfold strip. rewrite endswith_lstrip by exact Hq.
  unfold endswith, rstrip. now rewrite rev_involutive.
Qed.

Lemma lstrip_app_cons (u v t : str) (c : ascii) :
  lstrip u = c :: t -> lstrip (u ++ v) = (c :: t) ++ v.
Proof.
  induction u as [|x u IH]; simpl; [discriminate|].
  destruct (isspace x); [exact IH|].
  intros H. injection H as -> ->. reflexivity.
Qed.

Lemma lstrip_app_nil (u v : str) :
  lstrip u = [] -> lstrip (u ++ v) = lstrip v.
Proof.
  induction u as [|x u IH]; simpl; [reflexivity|].
  destruct (isspace x); [exact IH | discriminate].
Qed.

Lemma startswith_app_notin (u v p : str) (w : ascii) :
  ~ In w p -> startswith (u ++ w :: v) p = startswith u p.
Proof.
  revert u. induction p as [|a p IH]; intros u Hw; [reflexivity|].
  destruct u as [|c u]; simpl.
  - destruct (Ascii.eqb a w) eqn:E; [|reflexivity].
    apply ascii_eqb_true in E. subst. exfalso. apply Hw. now left.
  - rewrite IH; [reflexivity|]. intros Hin. apply Hw. now right.
Qed.

Lemma split_nonempty (sep : ascii) (s : str) :
  exists l ls, split sep s = l :: ls.
Proof.
  destruct s as [|c s]; simpl; [now eexists; eexists|].
  destruct (Ascii.eqb c sep); [now eexists; eexists|].
  destruct (split sep s); now eexists; eexists.
Qed.

Lemma join_cons (sep l : str) (ls : list str) :
  ls <> [] -> join sep (l :: ls) = l ++ sep ++ join sep ls.
Proof. destruct ls; [congruence | reflexivity]. Qed.

Lemma split_join (s : str) : join [nl] (split nl s) = s.
Proof.
  induction s as [|c s IH]; [reflexivity|]. cbn [split].
  destruct (split_nonempty nl s) as [l [ls Hs]]. rewrite Hs in *.
  destruct (Ascii.eqb c nl) eqn:E.
  - apply ascii_eqb_true in E. subst c.
    rewrite join_cons by discriminate. rewrite IH. reflexivity.
  - destruct ls as [|l' ls].
    + cbn [join] in *. now rewrite IH.
    + rewrite join_cons by discriminate.
      rewrite join_cons in IH by discriminate.
      rewrite <- IH. reflexivity.
Qed.

Lemma length_with_nl (A : list str) : length (with_nl A) = offset A.
Proof.
  unfold with_nl, offset. induction A as [|l A IH]; [reflexivity|].
  simpl. rewrite !length_app, IH. simpl. lia.
Qed.

Lemma join_app (A B : list str) :
  B <> [] -> join [nl] (A ++ B) = with_nl A ++ join [nl] B.
Proof.
  intros HB. induction A as [|l A IH]; [reflexivity|].
  cbn [app]. rewrite join_cons.
  - rewrite IH. unfold with_nl. simpl. now rewrite <- !app_assoc.
  - destruct A; [exact HB | discriminate].
Qed.

Lemma with_nl_join (A : list str) :
  A <> [] -> with_nl A = join [nl] A ++ [nl].
Proof.
  intros HA. induction A as [|l A IH]; [congruence|].
  destruct A as [|l' A].
  - unfold with_nl. simpl. now rewrite app_nil_r.
  - rewrite join_cons by discriminate.
    change (with_nl (l :: l' :: A)) with ((l ++ [nl]) ++ with_nl (l' :: A)).
    rewrite IH by discriminate. now rewrite <- !app_assoc.
Qed.

Lemma length_join_ge (A : list str) : length A <= length (join [nl] A) + 1.
Proof.
  induction A as [|l A IH]; [simpl; lia|].
  destruct A as [|l' A]; [simpl; lia|].
  rewrite join_cons by discriminate. rewrite !length_app.
  cbn [length] in *. lia.
Qed.

Lemma firstn_add {A : Type} (n m : nat) (l : list A) :
  firstn (n + m) l = firstn n l ++ firstn m (skipn n l).
Proof.
  revert l. induction n as [|n IH]; intros l; [reflexivity|].
  destruct l as [|x l]; simpl.
  - now rewrite firstn_nil.
  - now rewrite IH.
Qed.

Lemma slice_app (t : str) (a b c : nat) :
  a <= b -> b <= c -> slice t a b ++ slice t b c = slice t a c.
Proof.
  intros Hab Hbc. unfold slice.
  replace (c - a) with ((b - a) + (c - b)) by lia.
  rewrite firstn_add, skipn_skipn.
  now replace (b - a + a) with b by lia.
Qed.

Lemma slice_all (t : str) : slice t 0 (length t) = t.
Proof. unfold slice. rewrite Nat.sub_0_r. simpl. apply firstn_all. Qed.

Lemma skipn_cons_tail {A : Type} (n : nat) (l : list A) (x : A) (s : list A) :
  skipn n l = x :: s -> skipn (S n) l = s /\ n < length l.
Proof.
  revert l. induction n as [|n IH]; intros l H.
  - simpl in H. subst l. simpl. split; [reflexivity | lia].
  - destruct l as [|y l]; [discriminate|]. simpl in H.
    apply IH in H. simpl. split; [apply H | lia].
Qed.

Lemma filter_concat {A : Type} (f : A -> bool) (ls : list (list A)) :
  filter f (concat ls) = concat (map (filter f) ls).
Proof.
  induction ls as [|l ls IH]; [reflexivity|].
  simpl. now rewrite filter_app, IH.
Qed.

Lemma count_filter_class (c : ascii) (keep : ascii -> bool) (s : str) :
  keep c = true -> count c (filter keep s) = count c s.
Proof.
  intros Hc. unfold count. induction s as [|x s IH]; [reflexivity|].
  simpl. destruct (Ascii.eqb c x) eqn:E.
  - apply ascii_eqb_true in E. subst x. rewrite Hc. simpl.
    rewrite Ascii.eqb_refl. simpl. now rewrite IH.
  - destruct (keep x); simpl; [rewrite E|]; exact IH.
Qed.

Lemma count_app (c : ascii) (s t : str) :
  count c (s ++ t) = count c s + count c t.
Proof. unfold count. now rewrite filter_app, length_app. Qed.

Lemma count_repeat (c : ascii) (n : nat) : count c (repeat c n) = n.
Proof.
  unfold count. induction n as [|n IH]; [reflexivity|].
  simpl. rewrite Ascii.eqb_refl. simpl. now rewrite IH.
Qed.

Lemma str_of_nat_inj (n m : nat) : str_of_nat n = str_of_nat m -> n = m.
Proof.
  unfold str_of_nat. intros H.
  apply (f_equal string_of_list_ascii) in H.
  rewrite !string_of_list_ascii_of_string in H.
  apply (f_equal NilEmpty.uint_of_string) in H.
  rewrite !NilEmpty.usu in H. injection H as H.
  now apply DecimalNat.Unsigned.to_uint_inj.
Qed.

(* ================================================================= *)
(** ** Facts about the matcher *)

Section MatcherFacts.

Variable ic : bool.

Lemma reaches_here (k : cont) s pos g res (P : groups -> Prop) :
  P g -> k s pos g = Some res -> reaches k s pos 0 P res.
Proof.
  intros HP Hk. exists 0, g. rewrite Nat.add_0_r.
  repeat split; [lia | lia | exact HP | exact Hk].
Qed.

Lemma reaches_step (k : cont) x s pos lo (P : groups -> Prop) res :
  reaches k s (S pos) (pred lo) P res -> reaches k (x :: s) pos lo P res.
Proof.
  intros [n [g' [Hlo [Hn [HP Hk]]]]]. exists (S n), g'.
  replace (pos + S n) with (S pos + n) by lia.
  repeat split; [lia | simpl; lia | exact HP | exact Hk].
Qed.

Lemma rep_greedy_sound p min s pos g k res :
  rep_greedy p min s pos g k = Some res ->
  reaches k s pos min (fun g' => g' = g) res.
Proof.
  revert min pos. induction s as [|x s IH]; intros min pos; simpl.
  - destruct min; [|discriminate].
    now apply reaches_here.
  - destruct (p x).
    + destruct (rep_greedy p (pred min) s (S pos) g k) eqn:E.
      * intros H. injection H as <-. apply reaches_step. now apply IH.
      * destruct min; [|discriminate]. now apply reaches_here.
    + destruct min; [|discriminate]. now apply reaches_here.
Qed.

Lemma rep_lazy_sound p min s pos g k res :
  rep_lazy p min s pos g k = Some res ->
  reaches k s pos min (fun g' => g' = g) res.
Proof.
  revert min pos. induction s as [|x s IH]; intros min pos; simpl.
  - destruct min; [|discriminate].
    destruct (k [] pos g) eqn:E; [|discriminate].
    intros H. injection H as <-.
    eapply reaches_here; [|exact E]. reflexivity.
  - assert (Hmore : (if p x then rep_lazy p (pred min) s (S pos) g k else None)
                    = Some res -> reaches k (x :: s) pos min (fun g' => g' = g) res).
    { destruct (p x); [|discriminate]. intros H.
      apply reaches_step. now apply IH. }
    destruct min; [|exact Hmore].
    destruct (k (x :: s) pos g) eqn:E; [|exact Hmore].
    intros H. injection H as <-.
    eapply reaches_here; [|exact E]. reflexivity.
Qed.

Ltac here H :=
  eapply reaches_here; [|exact H];
  let K := fresh "K" in intros [K|K]; [discriminate | exact K].

Lemma rmatch_sound (i : nat) (r : regex) s pos g k res :
  rmatch ic r s pos g k = Some res ->
  reaches k s pos (min_len r) (keeps i (sets_group i r) g) res.
Proof.
  revert s pos g k.
  induction r as [| |c|p|r1 IH1 r2 IH2|r1 IH1 r2 IH2|gr min p|n r1 IH1];
    intros s pos g k; cbn [rmatch min_len sets_group].
  - intros H. here H.
  - destruct (pos =? 0); [|discriminate]. intros H. here H.
  - destruct s as [|x s]; [discriminate|].
    destruct (chr_matches ic c x); [|discriminate]. intros H.
    apply reaches_step. cbn [pred]. here H.
  - destruct s as [|x s]; [discriminate|].
    destruct (p x); [|discriminate]. intros H.
    apply reaches_step. cbn [pred]. here H.
  - intros H. apply IH1 in H.
    destruct H as [n1 [g1 [Hlo1 [Hn1 [HP1 H]]]]].
    apply IH2 in H. destruct H as [n2 [g2 [Hlo2 [Hn2 [HP2 H]]]]].
    rewrite length_skipn in Hn2.
    exists (n1 + n2), g2. rewrite skipn_skipn in H.
    replace (n2 + n1) with (n1 + n2) in H by lia.
    replace (pos + (n1 + n2)) with (pos + n1 + n2) by lia.
    repeat split; [lia | lia | | exact H].
    intros Hk. apply HP2. rewrite orb_true_iff in Hk.
    destruct Hk as [[Hk|Hk]|Hk]; [right; apply HP1; now left | now left |].
    right. apply HP1. now right.
  - destruct (rmatch ic r1 s pos g k) eqn:E.
    + intros H. injection H as <-. apply IH1 in E.
      destruct E as [n1 [g1 [Hlo [Hn [HP H]]]]]. exists n1, g1.
      repeat split; [lia | lia | | exact H].
      intros Hk. apply HP. rewrite andb_true_iff in Hk. tauto.
    + intros H. apply IH2 in H.
      destruct H as [n1 [g1 [Hlo [Hn [HP H]]]]]. exists n1, g1.
      repeat split; [lia | lia | | exact H].
      intros Hk. apply HP. rewrite andb_true_iff in Hk. tauto.
  - intros H.
    assert (H' : reaches k s pos min (fun g' => g' = g) res).
    { destruct gr;
        [eapply rep_greedy_sound | eapply rep_lazy_sound]; exact H. }
    destruct H' as [n1 [g1 [Hlo [Hn [-> H']]]]]. exists n1, g.
    repeat split; [lia | lia | | exact H'].
    intros [Hk|Hk]; [discriminate | exact Hk].
  - intros H. apply IH1 in H.
    destruct H as [n1 [g1 [Hlo [Hn [HP H]]]]].
    exists n1, ((n, (pos, pos + n1)) :: g1).
    repeat split; [lia | lia | | exact H].
    intros Hk. cbn [lookup]. destruct (i =? n) eqn:E; [discriminate|].
    apply HP. cbn [orb] in Hk. exact Hk.
Qed.

(** A match found at an offset ends within the input, at least [min_len]
    characters further on, and has recorded the groups of [sets_group]. *)
Lemma match_at_sound (i : nat) (r : regex) s pos m :
  match_at ic r s pos = Some m ->
  m_start m = pos /\
  pos + min_len r <= m_end m /\ m_end m <= pos + length s /\
  (sets_group i r = true -> lookup i (m_groups m) <> None).
Proof.
  unfold match_at.
  destruct (rmatch ic r s pos [] accept) as [[e g]|] eqn:E; [|discriminate].
  intros H. injection H as <-. cbn [m_start m_end m_groups].
  apply (rmatch_sound i) in E.
  destruct E as [n [g' [Hlo [Hn [HP H]]]]].
  unfold accept in H. injection H as <- <-.
  repeat split; [lia | lia |].
  intros Hs. apply HP. now left.
Qed.

(** Every match that the scan yields is a match at some offset of the
    input that is still to be read. *)
Lemma scan_In (r : regex) s pos skip m :
  In m (scan ic r s pos skip) ->
  exists d, d <= length s /\ match_at ic r (skipn d s) (pos + d) = Some m.
Proof.
  revert pos skip. induction s as [|x s IH]; intros pos skip.
  - destruct skip; simpl; [|tauto].
    destruct (match_at ic r [] pos) eqn:E; simpl; [|tauto].
    intros [<- | []]. exists 0. rewrite Nat.add_0_r. now split.
  - assert (Hrest : forall k, In m (scan ic r s (S pos) k) ->
              exists d, d <= length (x :: s) /\
                        match_at ic r (skipn d (x :: s)) (pos + d) = Some m).
    { intros k Hk. apply IH in Hk. destruct Hk as [d [Hd Hm]].
      exists (S d). replace (pos + S d) with (S pos + d) by lia.
      split; [simpl; lia | exact Hm]. }
    destruct skip; simpl; [|apply Hrest].
    destruct (match_at ic r (x :: s) pos) eqn:E; [|apply Hrest].
    intros [<- | H]; [|now apply Hrest in H].
    exists 0. rewrite Nat.add_0_r. split; [lia | exact E].
Qed.

Lemma finditer_In (r : regex) text m :
  In m (finditer ic r text) ->
  exists d, d <= length text /\ match_at ic r (skipn d text) d = Some m.
Proof. intros H. apply scan_In in H. exact H. Qed.

(** The span of a match of [finditer] lies in the text and is at least
    [min_len] characters long; mandatory groups are recorded. *)
Lemma finditer_span (i : nat) (r : regex) text m :
  In m (finditer ic r text) ->
  m_start m + min_len r <= m_end m /\ m_end m <= length text /\
  (sets_group i r = true -> lookup i (m_groups m) <> None).
Proof.
  intros H. apply finditer_In in H. destruct H as [d [Hd H]].
  apply (match_at_sound i) in H. rewrite length_skipn in H.
  destruct H as [-> [H1 [H2 H3]]]. repeat split; [lia | lia | exact H3].
Qed.

End MatcherFacts.

Lemma seqs_cons (ic : bool) (r : regex) (rs : list regex) s pos g k :
  rmatch ic (seqs (r :: rs)) s pos g k =
  rmatch ic r s pos g (fun s' pos' g' => rmatch ic (seqs rs) s' pos' g' k).
Proof. destruct rs; reflexivity. Qed.

(** Without [IGNORECASE] a literal is a test with [startswith]. *)
Lemma lit_spec (f s : str) (pos : nat) (g : groups) (k : cont) :
  rmatch false (lit f) s pos g k =
  if startswith s f then k (skipn (length f) s) (pos + length f) g else None.
Proof.
  revert s pos. induction f as [|c f IH]; intros s pos.
  - simpl. now rewrite Nat.add_0_r.
  - unfold lit. cbn [map]. rewrite seqs_cons. cbn [rmatch].
    destruct s as [|x s]; [reflexivity|].
    cbn [startswith chr_matches length skipn].
    destruct (Ascii.eqb c x); [|reflexivity]. cbn [andb].
    fold (lit f). rewrite IH.
    now replace (S pos + length f) with (pos + S (length f)) by lia.
Qed.

Lemma rep_greedy_elim p min s pos g k res :
  rep_greedy p min s pos g k = Some res ->
  exists j, min <= j /\ j <= length s /\
            forallb p (firstn j s) = true /\
            k (skipn j s) (pos + j) g = Some res.
Proof.
  revert min pos. induction s as [|x s IH]; intros min pos; simpl.
  - destruct min; [|discriminate]. intros H. exists 0.
    rewrite Nat.add_0_r. now repeat split.
  - assert (Hstop : match min with 0 => k (x :: s) pos g | S _ => None end
                    = Some res ->
                    exists j, min <= j /\ j <= S (length s) /\
                      forallb p (firstn j (x :: s)) = true /\
                      k (skipn j (x :: s)) (pos + j) g = Some res).
    { destruct min; [|discriminate]. intros H. exists 0.
      rewrite Nat.add_0_r. repeat split; [lia | lia | exact H]. }
    destruct (p x) eqn:Hp; [|exact Hstop].
    destruct (rep_greedy p (pred min) s (S pos) g k) eqn:E; [|exact Hstop].
    intros H. injection H as <-. apply IH in E.
    destruct E as [j [H1 [H2 [H3 H4]]]]. exists (S j).
    replace (pos + S j) with (S pos + j) by lia.
    repeat split; [lia | lia | | exact H4].
    simpl. now rewrite Hp, H3.
Qed.

(** The lazy repetition of [.] stops at the first offset at which the rest
    of the pattern matches. *)
Lemma rep_lazy_first s pos g k res :
  rep_lazy any_char 0 s pos g k = Some res ->
  exists j, j <= length s /\
            k (skipn j s) (pos + j) g = Some res /\
            forall j', j' < j -> k (skipn j' s) (pos + j') g = None.
Proof.
  revert pos. induction s as [|x s IH]; intros pos; simpl.
  - destruct (k [] pos g) eqn:E; [|discriminate].
    intros H. injection H as <-. exists 0. rewrite Nat.add_0_r.
    repeat split; [lia | exact E | intros j' Hj; lia].
  - destruct (k (x :: s) pos g) eqn:E.
    + intros H. injection H as <-. exists 0. rewrite Nat.add_0_r.
      repeat split; [lia | exact E | intros j' Hj; lia].
    + intros H. apply IH in H. destruct H as [j [H1 [H2 H3]]].
      exists (S j). replace (pos + S j) with (S pos + j) by lia.
      repeat split; [lia | exact H2|].
      intros [|j'] Hj.
      * now rewrite Nat.add_0_r.
      * replace (pos + S j') with (S pos + j') by lia. apply H3. lia.
Qed.

Lemma scan_tiled (ic : bool) (r : regex) (text : str) s pos skip last :
  skipn pos text = s -> pos <= length text -> last <= pos + skip ->
  tiled text (scan ic r s pos skip) last.
Proof.
  revert pos skip last. induction s as [|x s IH]; intros pos skip last Hs Hp Hl.
  - destruct skip; simpl; [|exact I].
    destruct (match_at ic r [] pos) as [m|] eqn:E; [|exact I].
    apply (match_at_sound ic 0) in E. simpl in E.
    destruct E as [E1 [E2 [E3 _]]]. simpl. repeat split; lia.
  - apply skipn_cons_tail in Hs as Hs'. destruct Hs' as [Hs' Hlt].
    assert (Hlen : length text = pos + length (x :: s)).
    { rewrite <- Hs, length_skipn. lia. }
    destruct skip as [|skip]; simpl.
    + destruct (match_at ic r (x :: s) pos) as [m|] eqn:E.
      * apply (match_at_sound ic 0) in E.
        destruct E as [E1 [E2 [E3 _]]]. simpl.
        repeat split; try lia.
        apply IH; [exact Hs' | lia | lia].
      * apply IH; [exact Hs' | lia | lia].
    + apply IH; [exact Hs' | lia | lia].
Qed.

Lemma split_pieces_concat (text : str) (ms : list Match) (last : nat) :
  tiled text ms last -> last <= length text ->
  concat (split_pieces text ms last) = slice text last (length text).
Proof.
  revert last. induction ms as [|m ms IH]; intros last Ht Hl; simpl.
  - apply app_nil_r.
  - destruct Ht as [H1 [H2 [H3 H4]]]. rewrite IH by assumption.
    unfold group0. rewrite slice_app by lia. apply slice_app; lia.
Qed.

Lemma re_split_concat (ic : bool) (r : regex) (text : str) :
  concat (re_split ic r text) = text.
Proof.
  unfold re_split, finditer. rewrite split_pieces_concat.
  - apply slice_all.
  - apply scan_tiled; [reflexivity | lia | lia].
  - lia.
Qed.

Lemma delete_pieces_filter (keep : ascii -> bool) (text : str)
    (ms : list Match) (last : nat) :
  tiled text ms last -> last <= length text ->
  Forall (fun m => filter keep (group0 text m) = []) ms ->
  filter keep (delete_pieces text ms last)
  = filter keep (slice text last (length text)).
Proof.
  revert last. induction ms as [|m ms IH]; intros last Ht Hl Hk; simpl.
  - reflexivity.
  - destruct Ht as [H1 [H2 [H3 H4]]]. inversion Hk as [|? ? Hm Hms]; subst.
    rewrite filter_app, IH by assumption.
    rewrite <- (slice_app text last (m_start m) (length text)) by lia.
    rewrite <- (slice_app text (m_start m) (m_end m) (length text)) by lia.
    rewrite !filter_app. unfold group0 in Hm. now rewrite Hm.
Qed.

(* ================================================================= *)
(** ** Language inference *)

(** The keyword written with a capital letter is compared with lowered
    text, so it is never found. *)
Lemma classDiagram_keyword_dead (code : str) :
  contains (py "classDiagram") (strip (lower code)) = false.
Proof.
  destruct (contains _ _) eqn:H; [exfalso | reflexivity].
  assert (HD : In "D"%char (strip (lower code))).
  { eapply contains_In; [exact H|]. vm_compute. tauto. }
  destruct (strip_split (lower code)) as [a [b Hs]].
  assert (HD' : In "D"%char (lower code)).
  { rewrite Hs. apply in_or_app. right. apply in_or_app. now left. }
  unfold lower in HD'. apply in_map_iff in HD'. destruct HD' as [x [Hx _]].
  pose proof (lower_char_not_upper x) as Hn. rewrite Hx in Hn. discriminate.
Qed.

(** C5: the code returns [plantuml] for the text [classDiagram], although
    that text contains the keyword [classdiagram] up to case. *)
Theorem infer_language_classDiagram :
  contains (py "classdiagram") (lower (py "classDiagram")) = true /\
  _infer_language (py "classDiagram") = py "plantuml".
Proof. split; vm_compute; reflexivity. Qed.

(** C10: code that contains [graph] up to case is inferred as [mermaid];
    hence code inferred as [dot] holds no [graph] (so no [digraph] and no
    [subgraph] either) and reaches the rule through [node] or [edge]
    together with [->] or [--]. *)
Theorem infer_language_graph_is_mermaid (code : str) :
  (contains (py "graph") (lower code) = true ->
   _infer_language code = py "mermaid") /\
  (_infer_language code = py "dot" ->
   contains (py "graph") (lower code) = false /\
   contains (py "digraph") (lower code) = false /\
   contains (py "subgraph") (lower code) = false /\
   (contains (py "node") (lower code) = true \/
    contains (py "edge") (lower code) = true) /\
   (contains (py "->") code = true \/ contains (py "--") code = true)).
Proof.
  assert (Hg : contains (py "graph") (lower code) = true ->
               _infer_language code = py "mermaid").
  { intros H. unfold _infer_language.
    rewrite <- (contains_strip (py "graph")) in H;
      [|discriminate | exact no_space_graph].
    unfold any_in at 1. cbn [existsb]. rewrite H. reflexivity. }
  split; [exact Hg|].
  intros Hdot.
  assert (Hng : contains (py "graph") (lower code) = false).
  { destruct (contains (py "graph") (lower code)) eqn:E; [|reflexivity].
    rewrite (Hg eq_refl) in Hdot. vm_compute in Hdot. discriminate. }
  assert (Hsub : forall a0, contains (a0 ++ py "graph") (lower code) = false).
  { intros a0. destruct (contains (a0 ++ _) _) eqn:E; [|reflexivity].
    rewrite <- (app_nil_r (py "graph")) in E.
    apply contains_longer in E. congruence. }
  split; [exact Hng|].
  split; [exact (Hsub (py "di"))|].
  split; [exact (Hsub (py "sub"))|].
  unfold _infer_language in Hdot.
  destruct (any_in _ _) in Hdot; [vm_compute in Hdot; discriminate|].
  destruct (any_in _ _) in Hdot; [vm_compute in Hdot; discriminate|].
  destruct (any_in _ (strip (lower code))) eqn:Hkw;
    [|vm_compute in Hdot; discriminate].
  destruct (contains (py "->") code || contains (py "--") code) eqn:Hop;
    [|vm_compute in Hdot; discriminate].
  split; [|apply orb_true_iff in Hop; exact Hop].
  unfold any_in in Hkw. cbn [existsb] in Hkw.
  rewrite !contains_strip in Hkw by (try discriminate; repeat constructor).
  change (py "digraph") with (py "di" ++ py "graph") in Hkw.
  change (py "subgraph") with (py "sub" ++ py "graph") in Hkw.
  rewrite !Hsub, Hng in Hkw. simpl in Hkw. rewrite orb_false_r in Hkw.
  apply orb_true_iff in Hkw. exact Hkw.
Qed.

Lemma infer_language_graph_is_mermaid_witness :
  _infer_language (py "digraph G { a -> b }") = py "mermaid" /\
  (contains (py "node") (lower (py "node [shape=box]; a -> b")) = true \/
   contains (py "edge") (lower (py "node [shape=box]; a -> b")) = true).
Proof.
  split.
  - apply (infer_language_graph_is_mermaid (py "digraph G { a -> b }")).
    vm_compute. reflexivity.
  - apply (infer_language_graph_is_mermaid (py "node [shape=box]; a -> b")).
    vm_compute. reflexivity.
Defined.

(* ================================================================= *)
(** ** Repair: PlantUML *)

(** Putting the start tag in front does not change whether the trimmed
    code ends with the end tag. *)
Lemma endswith_enduml_after_prepend (code : str) :
  endswith (strip (py "@startuml\n" ++ code)) (py "@enduml") =
  endswith (strip code) (py "@enduml").
Proof.
  rewrite !endswith_strip by (repeat constructor).
  rewrite rev_app_distr.
  destruct (lstrip (rev code)) as [|c t] eqn:E.
  - rewrite (lstrip_app_nil _ _ E). reflexivity.
  - rewrite (lstrip_app_cons _ _ _ _ E).
    change (rev (py "@startuml\n")) with (nl :: rev (py "@startuml")).
    apply startswith_app_notin.
    vm_compute. intuition discriminate.
Qed.

(** C8: the PlantUML repair puts an [@startuml] line in front exactly when
    the trimmed input does not start with that tag, puts an [@enduml] line
    at the end exactly when the trimmed input does not end with that tag,
    and records one issue for each, the one for the start tag first; on
    [actor User] both happen. *)
Theorem fix_plantuml_spec (code : str) :
  let no_start := negb (startswith (strip code) (py "@startuml")) in
  let no_end := negb (endswith (strip code) (py "@enduml")) in
  _fix_plantuml code =
    ((if no_start then py "@startuml\n" else []) ++ code
       ++ (if no_end then py "\n@enduml" else []),
     (if no_start then [py "Missing @startuml tag - adding"] else [])
       ++ (if no_end then [py "Missing @enduml tag - adding"] else []))
  /\ _fix_plantuml (py "actor User") =
       (py "@startuml\nactor User\n@enduml",
        [py "Missing @startuml tag - adding";
         py "Missing @enduml tag - adding"]).
Proof.
  split; [|vm_compute; reflexivity].
  unfold _fix_plantuml.
  destruct (startswith (strip code) (py "@startuml")) eqn:Hs; cbn [negb].
  - destruct (endswith (strip code) (py "@enduml")); cbn [negb];
      now rewrite ?app_nil_r.
  - rewrite endswith_enduml_after_prepend.
    destruct (endswith (strip code) (py "@enduml")); cbn [negb];
      now rewrite ?app_nil_r, <- ?app_assoc.
Qed.

(* ================================================================= *)
(** ** Repair: Mermaid *)

Lemma fix_mermaid_line_eq (st : list str * list str) (il : nat * str) :
  fix_mermaid_line st il =
  (fst st ++ line_issues il, snd st ++ line_output il).
Proof.
  destruct st as [issues fixed_lines], il as [i line0].
  unfold fix_mermaid_line, line_issues, line_output, header_missing.
  cbn [fst snd].
  destruct (negb (open_count line0 =? close_count line0));
    destruct ((i =? 0) && negb (any_in header_keywords (lower (balance line0))));
    now rewrite <- ?app_assoc, ?app_nil_r.
Qed.

Lemma fix_mermaid_loop (ils : list (nat * str)) (st : list str * list str) :
  fold_left fix_mermaid_line ils st =
  (fst st ++ flat_map line_issues ils, snd st ++ flat_map line_output ils).
Proof.
  revert st. induction ils as [|il ils IH]; intros st; simpl.
  - rewrite !app_nil_r. now destruct st.
  - rewrite IH, fix_mermaid_line_eq. cbn [fst snd].
    now rewrite <- !app_assoc.
Qed.

Lemma balance_eq (line : str) :
  balance line = line ++ repeat "]"%char (open_count line - close_count line).
Proof.
  unfold balance.
  destruct (open_count line =? close_count line) eqn:E; cbn [negb andb].
  - apply Nat.eqb_eq in E. rewrite E, Nat.sub_diag. simpl.
    now rewrite app_nil_r.
  - destruct (close_count line <? open_count line) eqn:L; [reflexivity|].
    apply Nat.ltb_ge in L.
    replace (open_count line - close_count line) with 0 by lia.
    simpl. now rewrite app_nil_r.
Qed.

(** Lines after the first never miss the header. *)
Lemma later_lines_output (ls : list str) (n : nat) :
  flat_map line_output (combine (seq (S n) (length ls)) ls) =
  map repaired_line ls.
Proof.
  revert n. induction ls as [|l ls IH]; intros n; [reflexivity|].
  cbn [length seq combine flat_map map]. rewrite IH.
  unfold line_output at 1, header_missing, repaired_line at 2.
  cbn [fst snd Nat.eqb andb app]. now rewrite balance_eq.
Qed.

Lemma later_lines_issues (ls : list str) (n : nat) (x : str) :
  In x (flat_map line_issues (combine (seq (S n) (length ls)) ls)) <->
  exists j line, nth_error ls j = Some line /\
                 open_count line <> close_count line /\
                 x = unbalanced_issue (S n + j + 1).
Proof.
  revert n. induction ls as [|l ls IH]; intros n.
  - simpl. split; [tauto|]. intros [j [line [H _]]]. now destruct j.
  - cbn [length seq combine flat_map]. rewrite in_app_iff, IH.
    unfold line_issues at 1, header_missing. cbn [fst snd Nat.eqb andb].
    rewrite app_nil_r. split.
    + intros [H | [j [line [Hj [Hne Hx]]]]].
      * destruct (open_count l =? close_count l) eqn:E; [destruct H|].
        destruct H as [<- | []]. exists 0, l. apply Nat.eqb_neq in E.
        repeat split; [exact E|]. now rewrite Nat.add_0_r.
      * exists (S j), line. repeat split; [exact Hj | exact Hne|].
        rewrite Hx; f_equal; lia.
    + intros [[|j] [line [Hj [Hne Hx]]]].
      * left. injection Hj as ->. apply Nat.eqb_neq in Hne. rewrite Hne.
        left. rewrite Hx; f_equal; lia.
      * right. exists j, line. repeat split; [exact Hj | exact Hne|].
        rewrite Hx; f_equal; lia.
Qed.

Lemma unbalanced_issue_inj (n m : nat) :
  unbalanced_issue n = unbalanced_issue m -> n = m.
Proof.
  unfold unbalanced_issue. intros H.
  apply app_inv_head in H. apply app_inv_tail in H.
  now apply str_of_nat_inj.
Qed.

Lemma unbalanced_issue_not_header (n : nat) :
  unbalanced_issue n <> missing_header_issue /\
  unbalanced_issue n <> no_type_issue.
Proof. split; intros H; vm_compute in H; discriminate. Qed.

Lemma fix_mermaid_eq (code : str) :
  _fix_mermaid code =
  let fl := loop_lines (split nl code) in
  let iss := loop_issues (split nl code) in
  if guard_fires fl
  then (py "graph TD\n" ++ join [nl] fl, iss ++ [no_type_issue])
  else (join [nl] fl, iss).
Proof.
  unfold _fix_mermaid. rewrite fix_mermaid_loop. reflexivity.
Qed.

Lemma loop_lines_eq (l : str) (ls : list str) :
  loop_lines (l :: ls) =
  (if header_missing 0 l then [py "graph TD"] else [])
  ++ map repaired_line (l :: ls).
Proof.
  unfold loop_lines, enumerate. cbn [length seq combine flat_map].
  rewrite later_lines_output. unfold line_output. cbn [fst snd map].
  rewrite <- app_assoc. unfold repaired_line at 2. now rewrite balance_eq.
Qed.

Lemma loop_issues_In (lines : list str) (x : str) :
  In x (loop_issues lines) <->
  (exists j line, nth_error lines j = Some line /\
                  open_count line <> close_count line /\
                  x = unbalanced_issue (j + 1))
  \/ (exists l ls, lines = l :: ls /\ header_missing 0 l = true /\
                   x = missing_header_issue).
Proof.
  destruct lines as [|l ls].
  - simpl. split; [tauto|].
    intros [[j [line [H _]]] | [l [ls [H _]]]]; [now destruct j | discriminate].
  - unfold loop_issues, enumerate. cbn [length seq combine flat_map].
    rewrite in_app_iff, later_lines_issues.
    unfold line_issues. cbn [fst snd]. rewrite in_app_iff. split.
    + intros [[H | H] | [j [line [Hj [Hne Hx]]]]].
      * destruct (open_count l =? close_count l) eqn:E; [destruct H|].
        destruct H as [<- | []]. left. exists 0, l. apply Nat.eqb_neq in E.
        now repeat split.
      * destruct (header_missing 0 l) eqn:E; [|destruct H].
        destruct H as [<- | []]. right. now exists l, ls.
      * left. exists (S j), line. repeat split; [exact Hj | exact Hne|].
        rewrite Hx; f_equal; lia.
    + intros [[[|j] [line [Hj [Hne Hx]]]] | [l' [ls' [Heq [Hm Hx]]]]].
      * left. left. injection Hj as ->. apply Nat.eqb_neq in Hne.
        rewrite Hne. left. now rewrite Hx.
      * right. exists j, line. repeat split; [exact Hj | exact Hne|].
        rewrite Hx; f_equal; lia.
      * left. right. injection Heq as <- <-. rewrite Hm. now left.
Qed.

Lemma guard_quiet_after_header (fl : list str) :
  fl <> [] -> guard_fires (py "graph TD" :: fl) = false.
Proof.
  intros Hne. unfold guard_fires. rewrite (join_cons _ _ _ Hne).
  unfold lower. rewrite map_app.
  change (map lower_char (py "graph TD")) with (py "graph td").
  change (firstn 50 (py "graph td" ++ ?x)) with (py "graph td" ++ firstn 42 x).
  unfold any_in, guard_keywords. cbn [existsb].
  replace (contains (py "graph") _) with true; [reflexivity|].
  symmetry. apply contains_iff. now exists [], (py " td" ++ firstn 42 (map lower_char ([nl] ++ join [nl] fl))).
Qed.

Lemma header_not_in_loop (lines : list str) :
  In missing_header_issue (loop_issues lines) ->
  exists l ls, lines = l :: ls /\ header_missing 0 l = true.
Proof.
  rewrite loop_issues_In.
  intros [[j [line [_ [_ Hx]]]] | [l [ls [Heq [Hm _]]]]].
  - exfalso. symmetry in Hx.
    exact (proj1 (unbalanced_issue_not_header (j + 1)) Hx).
  - now exists l, ls.
Qed.

Lemma no_type_not_in_loop (lines : list str) :
  ~ In no_type_issue (loop_issues lines).
Proof.
  rewrite loop_issues_In.
  intros [[j [line [_ [_ Hx]]]] | [l [ls [_ [_ Hx]]]]].
  - symmetry in Hx.
    exact (proj2 (unbalanced_issue_not_header (j + 1)) Hx).
  - vm_compute in Hx. discriminate.
Qed.

(** When the header fix of the first line fires, the final guard finds
    the inserted [graph] and stays quiet. *)
Lemma header_and_guard_exclusive (code : str) :
  In missing_header_issue (snd (_fix_mermaid code)) ->
  In no_type_issue (snd (_fix_mermaid code)) -> False.
Proof.
  rewrite fix_mermaid_eq. cbv zeta.
  destruct (guard_fires _) eqn:G; cbn [snd].
  - intros Hm _. apply in_app_or in Hm.
    destruct Hm as [Hm | [Hm | []]]; [|vm_compute in Hm; discriminate].
    apply header_not_in_loop in Hm. destruct Hm as [l [ls [Heq Hm]]].
    rewrite Heq, loop_lines_eq, Hm in G.
    change ([py "graph TD"] ++ ?x) with (py "graph TD" :: x) in G.
    rewrite guard_quiet_after_header in G; [discriminate|].
    simpl. discriminate.
  - intros _ Hn. now apply no_type_not_in_loop in Hn.
Qed.

Lemma fix_mermaid_prefixed (code : str) :
  In missing_header_issue (snd (_fix_mermaid code)) \/
  In no_type_issue (snd (_fix_mermaid code)) ->
  fst (_fix_mermaid code) =
  py "graph TD\n" ++ join [nl] (map repaired_line (split nl code)).
Proof.
  intros H.
  assert (Hx := header_and_guard_exclusive code).
  rewrite fix_mermaid_eq in *. cbv zeta in *.
  destruct (split_nonempty nl code) as [l [ls Heq]]. rewrite Heq in *.
  rewrite loop_lines_eq in *.
  destruct (header_missing 0 l) eqn:Hm.
  - change ([py "graph TD"] ++ ?x) with (py "graph TD" :: x) in *.
    rewrite guard_quiet_after_header in * by (simpl; discriminate).
    cbn [fst]. rewrite join_cons by (simpl; discriminate).
    now rewrite app_assoc.
  - cbn [app] in *. destruct (guard_fires _) eqn:G; cbn [fst snd] in *.
    + reflexivity.
    + exfalso. destruct H as [H | H].
      * apply header_not_in_loop in H. destruct H as [l' [ls' [E Hm']]].
        injection E as <- <-. congruence.
      * now apply no_type_not_in_loop in H.
Qed.

(** C6, as stated, does not hold: no input makes both the header
    fix of the first line and the final guard fire. *)
Lemma no_double_graph_td :
  ~ exists code : str,
      In missing_header_issue (snd (_fix_mermaid code)) /\
      In no_type_issue (snd (_fix_mermaid code)).
Proof.
  intros [code [Hm Hn]]. exact (header_and_guard_exclusive code Hm Hn).
Qed.

(** C6 (amended): for every input the header fix of the first line and the
    final guard exclude each other, and whichever fires puts exactly one
    [graph TD] line in front of the repaired lines. *)
Theorem fix_mermaid_single_header (code : str) :
  (In missing_header_issue (snd (_fix_mermaid code)) ->
   ~ In no_type_issue (snd (_fix_mermaid code))) /\
  (In missing_header_issue (snd (_fix_mermaid code)) \/
   In no_type_issue (snd (_fix_mermaid code)) ->
   fst (_fix_mermaid code) =
   py "graph TD\n" ++ join [nl] (map repaired_line (split nl code))).
Proof.
  split.
  - intros Hm Hn. exact (header_and_guard_exclusive code Hm Hn).
  - apply fix_mermaid_prefixed.
Qed.

Lemma fix_mermaid_single_header_witness :
  ~ In no_type_issue (snd (_fix_mermaid (py "A --> B"))) /\
  fst (_fix_mermaid (py "pie\nA --> B")) =
  py "graph TD\n" ++ join [nl] (map repaired_line (split nl (py "pie\nA --> B"))).
Proof.
  split.
  - apply (fix_mermaid_single_header (py "A --> B")).
    vm_compute. left. reflexivity.
  - apply (fix_mermaid_single_header (py "pie\nA --> B")).
    right. vm_compute. left. reflexivity.
Defined.

(** A match of [bad_run] covers no character of a node id. *)
Lemma bad_run_match (s : str) (pos : nat) (m : Match) :
  match_at false bad_run s pos = Some m ->
  m_start m = pos /\ filter node_char (firstn (m_end m - pos) s) = [].
Proof.
  unfold match_at, bad_run. cbn [rmatch].
  destruct (rep_greedy _ 1 s pos [] accept) as [[e g]|] eqn:E; [|discriminate].
  intros H. injection H as <-. cbn [m_start m_end]. split; [reflexivity|].
  apply rep_greedy_elim in E. destruct E as [j [_ [_ [Hp Ha]]]].
  unfold accept in Ha. injection Ha as <- <-.
  replace (pos + j - pos) with j by lia.
  induction (firstn j s) as [|c l IH]; [reflexivity|].
  simpl in *. apply andb_true_iff in Hp. destruct Hp as [Hc Hl].
  apply negb_true_iff in Hc. rewrite Hc. now apply IH.
Qed.

Lemma re_sub_bad_run_filter (part : str) :
  filter node_char (re_sub_empty false bad_run part) = filter node_char part.
Proof.
  unfold re_sub_empty. rewrite delete_pieces_filter.
  - now rewrite slice_all.
  - apply scan_tiled; [reflexivity | lia | lia].
  - lia.
  - apply Forall_forall. intros m Hm. apply finditer_In in Hm.
    destruct Hm as [d [Hd Hm]]. apply bad_run_match in Hm.
    destruct Hm as [Hs Hm]. unfold group0, slice. rewrite Hs. exact Hm.
Qed.

(** The cleaning removes nothing but characters outside the class of node
    ids: brackets, among others, all stay, in their order. *)
Lemma clean_node_ids_keeps (line : str) :
  filter node_char (clean_node_ids line) = filter node_char line.
Proof.
  unfold clean_node_ids.
  destruct (contains (py "-->") line || contains (py "---") line);
    [|reflexivity].
  rewrite filter_concat, map_map.
  rewrite <- (re_split_concat false edge_split line) at 2.
  rewrite filter_concat. f_equal. apply map_ext. intros part.
  destruct (existsb (str_eqb part) edge_tokens); [reflexivity|].
  apply re_sub_bad_run_filter.
Qed.

(** The repaired line holds the closing square brackets of the input line
    and the missing ones, and no other. *)
Lemma repaired_line_brackets (line : str) :
  count "]"%char (repaired_line line)
  = count "]"%char line + (open_count line - close_count line).
Proof.
  unfold repaired_line.
  rewrite <- (count_filter_class "]"%char node_char) by reflexivity.
  rewrite clean_node_ids_keeps.
  rewrite (count_filter_class "]"%char node_char) by reflexivity.
  now rewrite count_app, count_repeat.
Qed.

Lemma unbalanced_issue_iff (code : str) (i : nat) (line : str) :
  nth_error (split nl code) i = Some line ->
  (In (unbalanced_issue (i + 1)) (snd (_fix_mermaid code)) <->
   open_count line <> close_count line).
Proof.
  intros Hi.
  assert (Hloop : In (unbalanced_issue (i + 1)) (loop_issues (split nl code))
                  <-> open_count line <> close_count line).
  { rewrite loop_issues_In. split.
    - intros [[j [line' [Hj [Hne Hx]]]] | [l [ls [_ [_ Hx]]]]].
      + apply unbalanced_issue_inj in Hx.
        assert (j = i) by lia. subst j. congruence.
      + exfalso. exact (proj1 (unbalanced_issue_not_header (i + 1)) Hx).
    - intros Hne. left. now exists i, line. }
  rewrite fix_mermaid_eq. cbv zeta.
  destruct (guard_fires _); cbn [snd]; [|exact Hloop].
  rewrite in_app_iff, Hloop. split; [|tauto].
  intros [H | [H | []]]; [exact H|].
  exfalso. symmetry in H.
  exact (proj2 (unbalanced_issue_not_header (i + 1)) H).
Qed.

Lemma fix_mermaid_lines (code : str) :
  exists pre : list str,
    (pre = [] \/ pre = [py "graph TD"]) /\
    fst (_fix_mermaid code) =
    join [nl] (pre ++ map repaired_line (split nl code)).
Proof.
  rewrite fix_mermaid_eq. cbv zeta.
  destruct (split_nonempty nl code) as [l [ls Heq]]. rewrite Heq.
  rewrite loop_lines_eq.
  destruct (header_missing 0 l) eqn:Hm.
  - change ([py "graph TD"] ++ ?x) with (py "graph TD" :: x).
    rewrite guard_quiet_after_header by (simpl; discriminate).
    exists [py "graph TD"]. split; [now right | reflexivity].
  - cbn [app]. destruct (guard_fires _); cbn [fst].
    + exists [py "graph TD"]. split; [now right|].
      cbn [app]. rewrite join_cons by (simpl; discriminate).
      now rewrite app_assoc.
    + exists []. split; [now left | reflexivity].
Qed.

(** C7, as stated, does not hold: on the second line of this input
    the closing brackets outnumber the opening ones, and the issue is
    recorded all the same. *)
Lemma unbalanced_issue_without_excess :
  nth_error (split nl (py "graph TD\nA]")) 1 = Some (py "A]") /\
  In (unbalanced_issue 2) (snd (_fix_mermaid (py "graph TD\nA]"))) /\
  ~ close_count (py "A]") < open_count (py "A]").
Proof.
  split; [reflexivity|]. split.
  - vm_compute. left. reflexivity.
  - vm_compute. lia.
Qed.

(** C7 (amended): for every line of the code, the issue with its 1-based
    number is recorded exactly when its counts of opening and of closing
    brackets differ.  The line goes on to the cleaning of node ids with as
    many closing square brackets put at its end as opening brackets are in
    excess (none when there is no excess); the cleaning keeps every
    character of the class of node ids, so the repaired line holds exactly
    that many closing square brackets more than the input line.  The fixed
    code is made of the repaired lines, after at most one [graph TD] line.
    On the example one closing square bracket is put at the end of line 2
    and the one issue recorded is that of line 2. *)
Theorem fix_mermaid_brackets (code : str) (i : nat) (line : str) :
  nth_error (split nl code) i = Some line ->
  (In (unbalanced_issue (i + 1)) (snd (_fix_mermaid code)) <->
   open_count line <> close_count line) /\
  nth_error (map repaired_line (split nl code)) i =
    Some (clean_node_ids
            (line ++ repeat "]"%char (open_count line - close_count line))) /\
  filter node_char (repaired_line line) =
    filter node_char
      (line ++ repeat "]"%char (open_count line - close_count line)) /\
  count "]"%char (repaired_line line) =
    count "]"%char line + (open_count line - close_count line) /\
  (exists pre : list str,
     (pre = [] \/ pre = [py "graph TD"]) /\
     fst (_fix_mermaid code) =
     join [nl] (pre ++ map repaired_line (split nl code))) /\
  _fix_mermaid (py "graph TD\n    A[Start] --> B{Decision") =
    (py "graph TD\n    A[Start] --> B{Decision]", [unbalanced_issue 2]).
Proof.
  intros Hi. split; [now apply unbalanced_issue_iff|].
  split; [now rewrite nth_error_map, Hi|].
  split; [apply clean_node_ids_keeps|].
  split; [apply repaired_line_brackets|].
  split; [apply fix_mermaid_lines|].
  vm_compute. reflexivity.
Qed.

Lemma fix_mermaid_brackets_witness :
  In (unbalanced_issue 2)
     (snd (_fix_mermaid (py "graph TD\n    A[Start] --> B{Decision"))) <->
  open_count (py "    A[Start] --> B{Decision") <>
  close_count (py "    A[Start] --> B{Decision").
Proof.
  apply (fix_mermaid_brackets (py "graph TD\n    A[Start] --> B{Decision") 1
           (py "    A[Start] --> B{Decision")).
  reflexivity.
Defined.

(* ================================================================= *)
(** ** Spans of the detected blocks *)

Lemma line_offset_firstn (lines : list str) (s : nat) :
  s <= length lines ->
  line_offset lines (Z.of_nat s) = offset (firstn s lines).
Proof.
  unfold line_offset, offset. rewrite Nat2Z.id. intros Hs. f_equal.
  revert s Hs. induction lines as [|l lines IH]; intros s Hs.
  - simpl in Hs. replace s with 0 by lia. reflexivity.
  - destruct s as [|s]; [reflexivity|].
    cbn [seq map firstn nth]. f_equal.
    rewrite <- seq_shift, map_map. cbn [nth]. apply IH. simpl in Hs. lia.
Qed.

Section Gibberish.

Variable lines : list str.

Lemma gib_step_inv (done rest : list str) (x : str) (st : gib_state) :
  lines = done ++ x :: rest ->
  gib_inv lines done st ->
  gib_inv lines (done ++ [x]) (gib_step lines st (length done, x)).
Proof.
  intros Hl [Hb [A [Hd Hs]]]. unfold gib_inv, gib_step.
  set (text := join [nl] lines) in *.
  destruct (_is_gibberish_line x).
  - split; [exact Hb|]. cbn [gib_blocks current_block start_line].
    exists A. split; [now rewrite Hd, <- app_assoc|]. intros _.
    destruct (current_block st) eqn:E.
    + rewrite app_nil_r in Hd. now subst.
    + apply Hs. discriminate.
  - cbn [gib_blocks current_block start_line]. split.
    + destruct (3 <=? length (current_block st)) eqn:E3; [|exact Hb].
      destruct (2 <=? gibberish_count st); [|exact Hb]. cbn [andb].
      apply Forall_app. split; [exact Hb|]. constructor; [|constructor].
      apply Nat.leb_le in E3.
      assert (Hne : current_block st <> []).
      { intros E. rewrite E in E3. simpl in E3. lia. }
      rewrite (Hs Hne).
      assert (HA : firstn (length A) lines = A).
      { rewrite Hl, Hd, <- !app_assoc. rewrite firstn_app, firstn_all.
        rewrite Nat.sub_diag. simpl. now rewrite app_nil_r. }
      rewrite line_offset_firstn, HA.
      2:{ rewrite Hl, Hd, !length_app. lia. }
      assert (Ht : text = with_nl A ++ join [nl] (current_block st)
                            ++ nl :: join [nl] (x :: rest)).
      { unfold text. rewrite Hl at 1. rewrite Hd, <- !app_assoc.
        rewrite join_app by (destruct (current_block st); [congruence | discriminate]).
        rewrite join_app by discriminate.
        rewrite (with_nl_join (current_block st)) by exact Hne.
        now rewrite <- !app_assoc. }
      pose proof (length_join_ge (current_block st)) as Hlen.
      unfold well_spanned. cbn [start_pos end_pos original_text].
      rewrite <- length_with_nl. repeat split.
      * lia.
      * rewrite Ht, !length_app. lia.
      * unfold slice. rewrite Ht.
        rewrite skipn_app, skipn_all, Nat.sub_diag. simpl.
        replace (length (with_nl A) + length (join [nl] (current_block st))
                 - length (with_nl A))
          with (length (join [nl] (current_block st)) + 0) by lia.
        rewrite firstn_app_2. simpl. now rewrite app_nil_r.
    + exists (done ++ [x]). split; [now rewrite app_nil_r|].
      intros H. exfalso. apply H. reflexivity.
Qed.

Lemma gib_loop_inv (rest done : list str) (st : gib_state) :
  lines = done ++ rest ->
  gib_inv lines done st ->
  gib_inv lines lines
    (fold_left (gib_step lines) (combine (seq (length done) (length rest)) rest) st).
Proof.
  revert done st. induction rest as [|x rest IH]; intros done st Hl Hinv.
  - simpl. rewrite app_nil_r in Hl. subst done. exact Hinv.
  - cbn [length seq combine fold_left].
    replace (S (length done)) with (length (done ++ [x]))
      by (rewrite length_app; simpl; lia).
    apply IH.
    + now rewrite <- app_assoc.
    + now apply gib_step_inv with (rest := rest).
Qed.

End Gibberish.

Lemma gibberish_blocks_spanned (text : str) (b : Block) :
  In b (_detect_gibberish_blocks text) -> well_spanned text b.
Proof.
  unfold _detect_gibberish_blocks. intros Hb.
  pose proof (gib_loop_inv (split nl text) (split nl text) []
                (mkGib [] [] (-1)%Z 0) eq_refl) as H.
  cbn [length] in H. unfold enumerate in Hb.
  destruct H as [H _].
  - split; [constructor|]. exists []. split; [reflexivity|].
    cbn [current_block]. congruence.
  - rewrite split_join in H. rewrite Forall_forall in H. now apply H.
Qed.

Lemma matched_block_spanned (ic : bool) (r : regex) (text fmt : str) (m : Match) :
  1 <= min_len r -> In m (finditer ic r text) ->
  well_spanned text (block_of_match text fmt m).
Proof.
  intros Hmin Hm. apply (finditer_span ic 0) in Hm.
  destruct Hm as [H1 [H2 _]].
  unfold well_spanned, block_of_match. cbn [start_pos end_pos original_text].
  repeat split; [lia | exact H2].
Qed.

Lemma patterns_min_len (r : regex) :
  In r (standard_patterns ++ nonstandard_patterns) -> 1 <= min_len r.
Proof.
  simpl. intros [<- | [<- | [<- | [<- | [<- | []]]]]]; vm_compute; lia.
Qed.

Lemma patterns_record_body (ic : bool) (r : regex) (text : str) (m : Match) :
  In r (standard_patterns ++ nonstandard_patterns) ->
  In m (finditer ic r text) -> group text m 2 <> None.
Proof.
  intros Hr Hm. apply (finditer_span ic 2) in Hm.
  destruct Hm as [_ [_ Hg]]. unfold group.
  destruct (lookup 2 (m_groups m)) as [[a b]|]; [discriminate|].
  exfalso. apply Hg; [|reflexivity].
  simpl in Hr.
  destruct Hr as [<- | [<- | [<- | [<- | [<- | []]]]]]; reflexivity.
Qed.

Lemma candidates_spanned (text : str) (b : Block) :
  In b (flat_map (fun pattern =>
                    map (block_of_match text (py "standard"))
                        (finditer false pattern text)) standard_patterns
        ++ flat_map (fun pattern =>
                    map (block_of_match text (py "nonstandard"))
                        (finditer true pattern text)) nonstandard_patterns
        ++ _detect_gibberish_blocks text) ->
  well_spanned text b.
Proof.
  rewrite !in_app_iff, !in_flat_map.
  intros [[r [Hr Hb]] | [[r [Hr Hb]] | Hb]].
  - apply in_map_iff in Hb. destruct Hb as [m [<- Hm]].
    apply matched_block_spanned with (ic := false) (r := r); [|exact Hm].
    apply patterns_min_len. apply in_or_app. now left.
  - apply in_map_iff in Hb. destruct Hb as [m [<- Hm]].
    apply matched_block_spanned with (ic := true) (r := r); [|exact Hm].
    apply patterns_min_len. apply in_or_app. now right.
  - now apply gibberish_blocks_spanned.
Qed.

Lemma enumerate_from_app {A : Type} (l1 l2 : list A) (n : nat) :
  combine (seq n (length (l1 ++ l2))) (l1 ++ l2) =
  combine (seq n (length l1)) l1
    ++ combine (seq (n + length l1) (length l2)) l2.
Proof.
  revert n. induction l1 as [|x l1 IH]; intros n.
  - simpl. now rewrite Nat.add_0_r.
  - cbn [app length seq combine]. rewrite IH.
    now replace (S n + length l1) with (n + S (length l1)) by lia.
Qed.

Section GibberishRuns.

Variable lines : list str.

Lemma gib_step_grows (st : gib_state) (il : nat * str) (b : Block) :
  In b (gib_blocks st) -> In b (gib_blocks (gib_step lines st il)).
Proof.
  intros Hb. unfold gib_step. destruct il as [i line].
  destruct (_is_gibberish_line line); [exact Hb|].
  cbn [gib_blocks]. destruct (_ && _); [|exact Hb].
  apply in_or_app. now left.
Qed.

Lemma gib_loop_grows (ils : list (nat * str)) (st : gib_state) (b : Block) :
  In b (gib_blocks st) ->
  In b (gib_blocks (fold_left (gib_step lines) ils st)).
Proof.
  revert st. induction ils as [|il ils IH]; intros st Hb; [exact Hb|].
  simpl. apply IH. now apply gib_step_grows.
Qed.

(** A line that is not flagged empties the pending run. *)
Lemma gib_step_reset (st : gib_state) (i : nat) (line : str) :
  _is_gibberish_line line = false ->
  current_block (gib_step lines st (i, line)) = [] /\
  gibberish_count (gib_step lines st (i, line)) = 0.
Proof. intros H. unfold gib_step. rewrite H. now split. Qed.

(** Flagged lines are added to the pending run, which keeps its start. *)
Lemma gib_loop_run (R : list str) (n : nat) (st : gib_state) :
  forallb _is_gibberish_line R = true ->
  let st' := fold_left (gib_step lines) (combine (seq n (length R)) R) st in
  current_block st' = current_block st ++ R /\
  gibberish_count st' = gibberish_count st + length R /\
  gib_blocks st' = gib_blocks st /\
  start_line st' =
    match current_block st, R with
    | [], _ :: _ => Z.of_nat n
    | _, _ => start_line st
    end.
Proof.
  revert n st. induction R as [|x R IH]; intros n st HR; cbn zeta.
  - simpl. rewrite app_nil_r, Nat.add_0_r.
    repeat split. now destruct (current_block st).
  - simpl in HR. apply andb_true_iff in HR. destruct HR as [Hx HR].
    cbn [length seq combine fold_left].
    destruct (IH (S n) (gib_step lines st (n, x)) HR) as [H1 [H2 [H3 H4]]].
    rewrite H1, H2, H3, H4. unfold gib_step. rewrite Hx.
    cbn [current_block gibberish_count gib_blocks start_line].
    rewrite <- app_assoc. repeat split; [simpl; lia|].
    destruct (current_block st); reflexivity.
Qed.

End GibberishRuns.

(** What the density strategy does emit: a run of at least three flagged
    lines that begins the text or follows a line that is not flagged, and
    that is followed by a line that is not flagged, is a detected block. *)
Lemma gibberish_run_emitted (text : str) (A R rest : list str) (x : str) :
  split nl text = A ++ R ++ x :: rest ->
  (A = [] \/ exists A' y, A = A' ++ [y] /\ _is_gibberish_line y = false) ->
  forallb _is_gibberish_line R = true ->
  3 <= length R ->
  _is_gibberish_line x = false ->
  In (mkBlock (offset A) (offset A + length (join [nl] R))
              (_infer_language (join [nl] R)) (join [nl] R) (join [nl] R)
              (py "gibberish_detected"))
     (_detect_gibberish_blocks text).
Proof.
  intros Hl HA HR H3 Hx. unfold _detect_gibberish_blocks, enumerate.
  set (lines := split nl text) in *.
  assert (He : combine (seq 0 (length lines)) lines
               = combine (seq 0 (length (A ++ R ++ x :: rest)))
                         (A ++ R ++ x :: rest)) by now rewrite Hl.
  rewrite He. clear He. rewrite !enumerate_from_app, !fold_left_app.
  cbn [length seq combine fold_left plus].
  set (init := mkGib [] [] (-1)%Z 0).
  set (stA := fold_left (gib_step lines) (combine (seq 0 (length A)) A) init).
  assert (HstA : current_block stA = [] /\ gibberish_count stA = 0).
  { unfold stA. destruct HA as [-> | [A' [y [-> Hy]]]]; [now split|].
    rewrite enumerate_from_app, fold_left_app.
    cbn [length seq combine fold_left]. now apply gib_step_reset. }
  destruct HstA as [HcA HnA].
  pose proof (gib_loop_run lines R (length A) stA HR) as Hrun.
  cbn zeta in Hrun.
  set (stR := fold_left (gib_step lines)
                (combine (seq (length A) (length R)) R) stA) in *.
  destruct Hrun as [Hc [Hn [_ Hs]]].
  rewrite HcA in Hc, Hs. rewrite HnA in Hn. simpl in Hc, Hn.
  destruct R as [|r0 R']; [simpl in H3; lia|].
  apply gib_loop_grows. unfold gib_step at 1. rewrite Hx.
  cbn [gib_blocks]. rewrite Hc, Hn.
  replace (3 <=? length (r0 :: R')) with true by (symmetry; now apply Nat.leb_le).
  replace (2 <=? length (r0 :: R')) with true by (symmetry; apply Nat.leb_le; lia).
  cbn [andb]. apply in_or_app. right. left.
  assert (Hoff : line_offset lines (Z.of_nat (length A)) = offset A).
  { rewrite line_offset_firstn.
    - rewrite Hl, firstn_app, firstn_all, Nat.sub_diag.
      simpl. now rewrite app_nil_r.
    - rewrite Hl, length_app. lia. }
  rewrite Hs, Hoff. reflexivity.
Qed.

(** C4: the three lines of this text are all flagged and form a run that
    reaches the end of the text, and no block is detected; with a newline
    after the run the same three lines are detected. *)
Theorem gibberish_run_at_end_lost :
  split nl (py "[]\n{}\n()") = [py "[]"; py "{}"; py "()"] /\
  forallb _is_gibberish_line (split nl (py "[]\n{}\n()")) = true /\
  _detect_gibberish_blocks (py "[]\n{}\n()") = [] /\
  _detect_gibberish_blocks (py "[]\n{}\n()\n") =
    [mkBlock 0 8 (py "unknown") (py "[]\n{}\n()") (py "[]\n{}\n()")
             (py "gibberish_detected")].
Proof. repeat split; vm_compute; reflexivity. Qed.

(* ================================================================= *)
(** ** Sorting and the sweep *)

Lemma key_le_iff (a b : Block) :
  key_le a b <->
  start_pos a < start_pos b \/
  (start_pos a = start_pos b /\ end_pos b <= end_pos a).
Proof.
  unfold key_le, key_leb, sort_key. cbn [fst snd].
  rewrite orb_true_iff, andb_true_iff, Z.ltb_lt, Z.eqb_eq, Z.leb_le. lia.
Qed.

Lemma key_le_total (a b : Block) :
  key_leb (sort_key a) (sort_key b) = false -> key_le b a.
Proof.
  intros H. apply key_le_iff.
  assert (Hn : ~ key_le a b) by (unfold key_le; congruence).
  rewrite key_le_iff in Hn. lia.
Qed.

Lemma key_le_trans (a b c : Block) : key_le a b -> key_le b c -> key_le a c.
Proof. rewrite !key_le_iff. lia. Qed.

Lemma insert_block_In (x b : Block) (l : list Block) :
  In b (insert_block x l) <-> b = x \/ In b l.
Proof.
  induction l as [|y l IH]; simpl.
  - intuition congruence.
  - destruct (key_leb (sort_key x) (sort_key y)); simpl.
    + intuition congruence.
    + rewrite IH. intuition congruence.
Qed.

Lemma sort_blocks_In (b : Block) (l : list Block) :
  In b (sort_blocks l) <-> In b l.
Proof.
  induction l as [|x l IH]; simpl; [tauto|].
  rewrite insert_block_In, IH. intuition congruence.
Qed.

Lemma insert_block_sorted (x : Block) (l : list Block) :
  StronglySorted key_le l -> StronglySorted key_le (insert_block x l).
Proof.
  induction l as [|y l IH]; intros Hs; simpl.
  - repeat constructor.
  - inversion Hs as [|? ? Hs' Hy]; subst.
    destruct (key_leb (sort_key x) (sort_key y)) eqn:E.
    + constructor; [exact Hs|]. constructor; [exact E|].
      rewrite Forall_forall in *. intros z Hz.
      apply key_le_trans with y; [exact E | now apply Hy].
    + constructor; [now apply IH|].
      rewrite Forall_forall in *. intros z Hz.
      apply insert_block_In in Hz. destruct Hz as [-> | Hz].
      * now apply key_le_total.
      * now apply Hy.
Qed.

Lemma sort_blocks_sorted (l : list Block) :
  StronglySorted key_le (sort_blocks l).
Proof.
  induction l as [|x l IH]; simpl; [constructor|].
  now apply insert_block_sorted.
Qed.

Lemma StronglySorted_snoc {A : Type} (R : A -> A -> Prop) (l : list A) (x : A) :
  StronglySorted R l -> Forall (fun a => R a x) l ->
  StronglySorted R (l ++ [x]).
Proof.
  induction l as [|y l IH]; intros Hs Hx; simpl.
  - repeat constructor.
  - inversion Hs; subst. inversion Hx; subst.
    constructor; [now apply IH|].
    apply Forall_app. split; [assumption | now repeat constructor].
Qed.

Lemma StronglySorted_init {A : Type} (R : A -> A -> Prop) (l : list A) (x : A) :
  StronglySorted R (l ++ [x]) ->
  StronglySorted R l /\ Forall (fun a => R a x) l.
Proof.
  induction l as [|y l IH]; intros Hs; simpl in *.
  - split; constructor.
  - inversion Hs as [|? ? Hs' Hy]; subst.
    destruct (IH Hs') as [H1 H2].
    apply Forall_app in Hy. destruct Hy as [Hy Hyx].
    split; constructor; try assumption. now inversion Hyx.
Qed.

Lemma StronglySorted_nth {A : Type} (R : A -> A -> Prop) (l : list A) :
  StronglySorted R l ->
  forall i j a b, i < j ->
    nth_error l i = Some a -> nth_error l j = Some b -> R a b.
Proof.
  induction 1 as [|x l Hs IH Hx]; intros i j a b Hij Hi Hj.
  - now destruct i.
  - destruct j as [|j]; [lia|]. simpl in Hj. destruct i as [|i].
    + injection Hi as <-. rewrite Forall_forall in Hx.
      apply Hx. eapply nth_error_In. exact Hj.
    + simpl in Hi. apply (IH i j); [lia | exact Hi | exact Hj].
Qed.

Lemma sweep_step_inv (result rest : list Block) (block : Block) :
  nonempty_span block ->
  Forall (fun b => start_pos block <= start_pos b) rest ->
  sweep_inv result (block :: rest) ->
  sweep_inv (sweep result block) rest.
Proof.
  intros Hgood Hrest [init [l [Hres [Hsorted [Hne Hlb]]]]].
  inversion Hlb as [|? ? Hlblock Hlrest]; subst.
  unfold sweep. rewrite last_last, removelast_last.
  apply StronglySorted_init in Hsorted as Hinit. destruct Hinit as [Hsi Hil].
  apply Forall_app in Hne as Hne'. destruct Hne' as [Hnei Hnel].
  assert (Hl : nonempty_span l) by now inversion Hnel.
  unfold nonempty_span, before in *.
  destruct (end_pos l <=? start_pos block) eqn:E1.
  - apply Nat.leb_le in E1. exists (init ++ [l]), block.
    repeat split.
    + apply StronglySorted_snoc; [exact Hsorted|].
      apply Forall_app. split; [|now repeat constructor].
      eapply Forall_impl; [|exact Hil]. cbv beta. intros a Ha. unfold before. lia.
    + apply Forall_app. split; [exact Hne | now repeat constructor].
    + exact Hrest.
  - destruct (end_pos l <? end_pos block) eqn:E2.
    + exists init, block. repeat split.
      * apply StronglySorted_snoc; [exact Hsi|].
        eapply Forall_impl; [|exact Hil]. cbv beta. intros a Ha. unfold before. lia.
      * apply Forall_app. split; [exact Hnei | now repeat constructor].
      * exact Hrest.
    + exists init, l. repeat split; assumption.
Qed.

Lemma sweep_loop_inv (rest result : list Block) :
  Forall nonempty_span rest ->
  StronglySorted key_le rest ->
  sweep_inv result rest ->
  sweep_inv (fold_left sweep rest result) [].
Proof.
  revert result. induction rest as [|block rest IH]; intros result Hg Hs Hinv.
  - exact Hinv.
  - inversion Hg; subst. inversion Hs as [|? ? Hs' Hb]; subst.
    cbn [fold_left]. apply IH; [assumption | assumption |].
    apply sweep_step_inv; [assumption | | exact Hinv].
    eapply Forall_impl; [|exact Hb]. cbv beta.
    intros b Hk. apply key_le_iff in Hk. lia.
Qed.

Lemma deduplicate_ordered (blocks : list Block) :
  Forall nonempty_span blocks ->
  StronglySorted before (_deduplicate_blocks blocks) /\
  Forall nonempty_span (_deduplicate_blocks blocks).
Proof.
  intros Hg. unfold _deduplicate_blocks.
  pose proof (sort_blocks_sorted blocks) as Hs.
  assert (Hg' : Forall nonempty_span (sort_blocks blocks)).
  { rewrite Forall_forall in *. intros b Hb. apply Hg.
    now apply sort_blocks_In. }
  destruct (sort_blocks blocks) as [|first rest]; [split; constructor|].
  inversion Hg' as [|? ? Hgf Hgr]; subst.
  inversion Hs as [|? ? Hs' Hf]; subst.
  destruct (sweep_loop_inv rest [first]) as [init [l [_ [Hso [Hno _]]]]];
    [assumption | assumption | | now split].
  exists [], first. repeat split.
  - repeat constructor.
  - now repeat constructor.
  - eapply Forall_impl; [|exact Hf]. cbv beta.
    intros b Hk. apply key_le_iff in Hk. lia.
Qed.

Lemma sweep_In (result : list Block) (block b : Block) :
  In b (sweep result block) -> In b result \/ b = block.
Proof.
  unfold sweep.
  destruct (end_pos (last result block) <=? start_pos block).
  - rewrite in_app_iff. simpl. intuition.
  - destruct (end_pos (last result block) <? end_pos block); [|tauto].
    rewrite in_app_iff. simpl. intros [H | [H | []]]; [|now right].
    left. destruct result as [|x result]; [destruct H|].
    destruct (exists_last (l := x :: result)) as [q [d Hq]]; [discriminate|].
    rewrite Hq in *. rewrite removelast_last in H.
    apply in_or_app. now left.
Qed.

Lemma sweep_loop_In (rest result : list Block) (b : Block) :
  In b (fold_left sweep rest result) -> In b result \/ In b rest.
Proof.
  revert result. induction rest as [|x rest IH]; intros result; simpl.
  - tauto.
  - intros H. apply IH in H. destruct H as [H | H]; [|tauto].
    apply sweep_In in H. intuition.
Qed.

Lemma deduplicate_In (blocks : list Block) (b : Block) :
  In b (_deduplicate_blocks blocks) -> In b blocks.
Proof.
  unfold _deduplicate_blocks. intros H. apply sort_blocks_In.
  destruct (sort_blocks blocks) as [|first rest]; [destruct H|].
  apply sweep_loop_In in H. simpl in *. intuition.
Qed.

(* ================================================================= *)
(** ** The detector as a whole *)

(** C2: every block that [detect_blocks] returns has a non-empty span
    inside the text, and the text between its offsets is its
    [original_text]; this holds for the blocks found by a pattern and for
    those inferred from the density of special characters. *)
Theorem detect_blocks_spans (text : str) (b : Block) :
  In b (detect_blocks text) ->
  start_pos b < end_pos b /\ end_pos b <= length text /\
  slice text (start_pos b) (end_pos b) = original_text b.
Proof.
  unfold detect_blocks. intros H. apply deduplicate_In in H.
  rewrite <- app_assoc in H. exact (candidates_spanned text b H).
Qed.

Lemma detect_blocks_spans_witness :
  6 < 14 /\ 14 <= length (py "intro\n[]\n{}\n()\nend") /\
  slice (py "intro\n[]\n{}\n()\nend") 6 14 = py "[]\n{}\n()".
Proof.
  apply (detect_blocks_spans (py "intro\n[]\n{}\n()\nend")
           (mkBlock 6 14 (py "unknown") (py "[]\n{}\n()") (py "[]\n{}\n()")
                    (py "gibberish_detected"))).
  vm_compute. left. reflexivity.
Defined.

(** C1: the blocks that [detect_blocks] returns are in strictly ascending
    order of [start_pos], and each ends where or before every later one
    begins. *)
Theorem detect_blocks_ordered (text : str) (i j : nat) (a b : Block) :
  i < j ->
  nth_error (detect_blocks text) i = Some a ->
  nth_error (detect_blocks text) j = Some b ->
  end_pos a <= start_pos b /\ start_pos a < start_pos b.
Proof.
  intros Hij Ha Hb. unfold detect_blocks in *.
  match type of Ha with
  | nth_error (_deduplicate_blocks ?l) _ = _ => set (blocks := l) in *
  end.
  assert (Hg : Forall nonempty_span blocks).
  { rewrite Forall_forall. intros x Hx. unfold blocks in Hx.
    rewrite <- app_assoc in Hx. apply candidates_spanned in Hx.
    exact (proj1 Hx). }
  destruct (deduplicate_ordered blocks Hg) as [Hs Hne].
  pose proof (StronglySorted_nth _ _ Hs i j a b Hij Ha Hb) as Hab.
  rewrite Forall_forall in Hne. apply nth_error_In in Ha. apply Hne in Ha.
  unfold before, nonempty_span in *. lia.
Qed.

(** In this text the match of the [code] tags, at 0..20, is replaced in the
    sweep by the fenced block at 7..25 that overlaps it and ends later. *)
Lemma detect_blocks_ordered_witness :
  25 <= 26 /\ 7 < 26.
Proof.
  apply (detect_blocks_ordered (py "<code>\n```\nx\n</code>\ny```\n~~~\nz\n~~~")
           0 1
           (mkBlock 7 25 (py "unknown") (py "x\n</code>\ny")
                    (py "```\nx\n</code>\ny```") (py "standard"))
           (mkBlock 26 35 (py "unknown") (py "z") (py "~~~\nz\n~~~")
                    (py "standard"))).
  - lia.
  - vm_compute. reflexivity.
  - vm_compute. reflexivity.
Defined.

(* ================================================================= *)
(** ** Where a fenced block ends *)

Lemma fence_pattern_eq (fence : str) :
  fence_pattern fence = Seq (lit fence) (Seq word_tag (fence_tail fence)).
Proof. reflexivity. Qed.

Lemma fence_tail_elim (fence s : str) (p : nat) (g : groups) res :
  rmatch false (fence_tail fence) s p g accept = Some res ->
  exists bl,
    nth_error s 0 = Some nl /\
    startswith (skipn (1 + bl) s) fence = true /\
    (forall j, j < bl -> startswith (skipn (1 + j) s) fence = false) /\
    1 + bl + length fence <= length s /\
    res = (p + 1 + bl + length fence, (2, (p + 1, p + 1 + bl)) :: g).
Proof.
  unfold fence_tail, body. cbn [seqs rmatch].
  destruct s as [|x s]; [discriminate|].
  unfold chr_matches. destruct (Ascii.eqb nl x) eqn:E; [|discriminate].
  apply ascii_eqb_true in E. subst x. intros H.
  apply rep_lazy_first in H. destruct H as [bl [H1 [H2 H3]]].
  rewrite lit_spec in H2.
  destruct (startswith (skipn bl s) fence) eqn:Hf; [|discriminate].
  exists bl. split; [reflexivity|]. split; [exact Hf|]. split; [|split].
  - intros j Hj. specialize (H3 j Hj). rewrite lit_spec in H3. cbn [skipn plus].
    destruct (startswith (skipn j s) fence); [discriminate | reflexivity].
  - apply startswith_iff in Hf. destruct Hf as [b Hb].
    apply (f_equal (@length ascii)) in Hb.
    rewrite length_skipn, length_app in Hb. simpl. lia.
  - unfold accept in H2. injection H2 as <-. f_equal; [lia|].
    repeat f_equal; lia.
Qed.

Lemma fence_match_at (fence s : str) (pos : nat) (m : Match) :
  match_at false (fence_pattern fence) s pos = Some m ->
  exists t bl,
    startswith s fence = true /\
    forallb isword (firstn t (skipn (length fence) s)) = true /\
    nth_error s (length fence + t) = Some nl /\
    startswith (skipn (length fence + t + 1 + bl) s) fence = true /\
    (forall j, j < bl ->
       startswith (skipn (length fence + t + 1 + j) s) fence = false) /\
    length fence + t + 1 + bl + length fence <= length s /\
    m_start m = pos /\
    m_end m = pos + (length fence + t + 1 + bl + length fence) /\
    lookup 2 (m_groups m)
      = Some (pos + (length fence + t + 1), pos + (length fence + t + 1 + bl)).
Proof.
  unfold match_at. rewrite fence_pattern_eq. unfold word_tag, Opt.
  cbn [rmatch]. rewrite lit_spec.
  destruct (startswith s fence) eqn:Hf; [|discriminate].
  set (s1 := skipn (length fence) s). set (p1 := pos + length fence).
  assert (Hlen : length s1 + length fence <= length s \/ length s1 = 0).
  { unfold s1. rewrite length_skipn. lia. }
  assert (Hlen' : length fence <= length s).
  { apply startswith_iff in Hf. destruct Hf as [b ->].
    rewrite length_app. lia. }
  assert (Hfin : forall t g res,
            t <= length s1 ->
            forallb isword (firstn t s1) = true ->
            rmatch false (fence_tail fence) (skipn t s1) (p1 + t) g accept
              = Some res ->
            exists bl,
              nth_error s (length fence + t) = Some nl /\
              startswith (skipn (length fence + t + 1 + bl) s) fence = true /\
              (forall j, j < bl ->
                 startswith (skipn (length fence + t + 1 + j) s) fence = false) /\
              length fence + t + 1 + bl + length fence <= length s /\
              res = (pos + (length fence + t + 1 + bl + length fence),
                     (2, (pos + (length fence + t + 1),
                          pos + (length fence + t + 1 + bl))) :: g)).
  { intros t g res Ht Hw H. apply fence_tail_elim in H.
    destruct H as [bl [H1 [H2 [H3 [H4 H5]]]]]. exists bl.
    unfold s1 in *. rewrite !nth_error_skipn in H1.
    rewrite !skipn_skipn in H2. rewrite !length_skipn in H4.
    split; [now replace (length fence + t) with (length fence + (t + 0)) by lia|].
    split; [now replace (length fence + t + 1 + bl)
                   with (1 + bl + t + length fence) by lia|].
    split; [|split].
    - intros j Hj. specialize (H3 j Hj). rewrite !skipn_skipn in H3.
      now replace (length fence + t + 1 + j)
        with (1 + j + t + length fence) by lia.
    - lia.
    - rewrite H5. unfold p1.
      replace (pos + length fence + t + 1 + bl + length fence)
        with (pos + (length fence + t + 1 + bl + length fence)) by lia.
      replace (pos + length fence + t + 1 + bl)
        with (pos + (length fence + t + 1 + bl)) by lia.
      replace (pos + length fence + t + 1)
        with (pos + (length fence + t + 1)) by lia.
      reflexivity. }
  match goal with
  | |- context [rep_greedy ?p ?n ?a ?b ?c ?k] =>
      destruct (rep_greedy p n a b c k) as [res|] eqn:E
  end.
  - apply rep_greedy_elim in E.
    destruct E as [t [H1 [H2 [H3 H4]]]].
    destruct (Hfin t _ res H2 H3 H4) as [bl [Hn [Hc [Hfirst [Hle ->]]]]].
    intros H. injection H as <-. exists t, bl.
    cbn [m_start m_end m_groups lookup Nat.eqb].
    repeat split; assumption.
  - destruct (rmatch false (fence_tail fence) s1 p1 [] accept) as [res|] eqn:E';
      [|discriminate].
    destruct (Hfin 0 [] res) as [bl [Hn [Hc [Hfirst [Hle ->]]]]];
      [lia | reflexivity | now rewrite Nat.add_0_r |].
    intros H. injection H as <-. exists 0, bl.
    cbn [m_start m_end m_groups lookup Nat.eqb].
    repeat split; assumption.
Qed.

(** C3, as stated, does not hold: in this text the first fence
    after the opening line stands in the middle of the second line, between
    two spaces, and a fence on a line of its own follows; the match ends at
    the former, with [a] and a space as its body. *)
Lemma fence_closes_mid_line :
  map (fun m => (m_start m, m_end m, group (py "```\na ``` b\n```") m 2))
      (finditer false (fence_pattern (py "```")) (py "```\na ``` b\n```"))
    = [(0, 9, Some (py "a "))] /\
  slice (py "```\na ``` b\n```") 5 10 = py " ``` " /\
  slice (py "```\na ``` b\n```") 11 15 = py "\n```" /\
  map (fun b => (start_pos b, end_pos b, code b))
      (detect_blocks (py "```\na ``` b\n```"))
    = [(0, 9, py "a")].
Proof. repeat split; vm_compute; reflexivity. Qed.

(** C3 (amended): a match of a fenced pattern begins with the fence, an
    optional run of word characters and a newline; its body, group 2, runs
    from there to the first place at which the fence occurs again, wherever
    on a line that is, and the match ends with that fence.  The body may
    hold newlines, as in the example. *)
Theorem fenced_body_ends_at_first_fence (fence text : str) (m : Match) :
  In m (finditer false (fence_pattern fence) text) ->
  (exists bs be,
     lookup 2 (m_groups m) = Some (bs, be) /\
     m_start m + length fence < bs /\ bs <= be /\
     startswith (skipn (m_start m) text) fence = true /\
     forallb isword (slice text (m_start m + length fence) (bs - 1)) = true /\
     nth_error text (bs - 1) = Some nl /\
     startswith (skipn be text) fence = true /\
     m_end m = be + length fence /\ m_end m <= length text /\
     forall k, bs <= k -> k < be -> startswith (skipn k text) fence = false)
  /\ map (fun m => group (py "```mermaid\ngraph TD\n  A --> B\n```") m 2)
         (finditer false (fence_pattern (py "```"))
                   (py "```mermaid\ngraph TD\n  A --> B\n```"))
     = [Some (py "graph TD\n  A --> B\n")].
Proof.
  intros Hm. split; [|vm_compute; reflexivity].
  apply finditer_In in Hm. destruct Hm as [d [Hd Hm]].
  apply fence_match_at in Hm.
  destruct Hm as [t [bl [Hf [Hw [Hn [Hc [Hfirst [Hle [Hs [He Hg]]]]]]]]]].
  rewrite length_skipn in Hle.
  exists (d + (length fence + t + 1)), (d + (length fence + t + 1 + bl)).
  rewrite Hs, He. split; [exact Hg|].
  split; [lia|]. split; [lia|]. split; [exact Hf|]. split; [|split].
  - unfold slice.
    replace (d + (length fence + t + 1) - 1 - (d + length fence)) with t by lia.
    rewrite skipn_skipn in Hw.
    now replace (d + length fence) with (length fence + d) by lia.
  - rewrite nth_error_skipn in Hn.
    now replace (d + (length fence + t + 1) - 1)
      with (d + (length fence + t)) by lia.
  - split; [|split; [lia | split; [lia|]]].
    + rewrite skipn_skipn in Hc.
      now replace (d + (length fence + t + 1 + bl))
        with (length fence + t + 1 + bl + d) by lia.
    + intros k Hk1 Hk2.
      specialize (Hfirst (k - (d + (length fence + t + 1)))).
      rewrite skipn_skipn in Hfirst.
      replace (length fence + t + 1 + (k - (d + (length fence + t + 1))) + d)
        with k in Hfirst by lia.
      apply Hfirst. lia.
Qed.

Lemma fenced_body_ends_at_first_fence_witness :
  exists bs be,
    lookup 2 [(2, (4, 6))] = Some (bs, be) /\
    0 + 3 < bs /\ bs <= be /\
    startswith (skipn 0 (py "```\na ``` b\n```")) (py "```") = true /\
    forallb isword (slice (py "```\na ``` b\n```") (0 + 3) (bs - 1)) = true /\
    nth_error (py "```\na ``` b\n```") (bs - 1) = Some nl /\
    startswith (skipn be (py "```\na ``` b\n```")) (py "```") = true /\
    9 = be + 3 /\ 9 <= 15 /\
    forall k, bs <= k -> k < be ->
      startswith (skipn k (py "```\na ``` b\n```")) (py "```") = false.
Proof.
  apply (fenced_body_ends_at_first_fence (py "```") (py "```\na ``` b\n```")
           (mkMatch 0 9 [(2, (4, 6))])).
  vm_compute. left. reflexivity.
Defined.

(* ================================================================= *)
(** ** Repair: DOT, and repairing twice *)

Lemma lstrip_spaces_app (ws y : str) :
  Forall (fun c => isspace c = true) ws -> lstrip (ws ++ y) = lstrip y.
Proof.
  induction 1 as [|c ws Hc _ IH]; [reflexivity|].
  simpl. now rewrite Hc.
Qed.

Lemma lstrip_nonspace (c : ascii) (t : str) :
  isspace c = false -> lstrip (c :: t) = c :: t.
Proof. intros H. simpl. now rewrite H. Qed.

(** Whether the trimmed text starts with a word without whitespace is
    decided by its left trimming alone. *)
Lemma startswith_strip (x q : str) :
  Forall (fun c => isspace c = false) q ->
  startswith (strip x) q = startswith (lstrip x) q.
Proof.
  intros Hq. destruct q as [|c q]; [reflexivity|].
  assert (Hc : isspace c = false) by now inversion Hq.
  apply eq_true_iff_eq. rewrite !startswith_iff. unfold strip. split.
  - intros [b Hb].
    destruct (lstrip_split (rstrip x)) as [ws [Hws Hsp]].
    destruct (rstrip_split x) as [t [Ht _]].
    rewrite Hb in Hws. rewrite Hws in Ht. rewrite Ht.
    rewrite <- !app_assoc. rewrite lstrip_spaces_app by exact Hsp.
    simpl. rewrite Hc. now exists (b ++ t).
  - intros [b Hb].
    destruct (lstrip_split x) as [ws [Hws Hsp]]. rewrite Hb in Hws.
    destruct (exists_last (l := c :: q)) as [q0 [d Hq0]]; [discriminate|].
    assert (Hd : isspace d = false).
    { rewrite Forall_forall in Hq. apply Hq. rewrite Hq0.
      apply in_or_app. right. now left. }
    rewrite Hws. rewrite Hq0. rewrite <- (app_assoc q0 [d] b). simpl.
    rewrite app_assoc.
    destruct (rstrip_app_keep (ws ++ q0) b d Hd) as [t' ->].
    rewrite <- app_assoc. rewrite lstrip_spaces_app by exact Hsp.
    assert (Hh : exists t0, q0 ++ d :: t' = c :: t0).
    { destruct q0 as [|c0 q0].
      - simpl in Hq0. injection Hq0 as -> _. now exists t'.
      - simpl in Hq0. injection Hq0 as -> _. now exists (q0 ++ d :: t'). }
    destruct Hh as [t0 Ht0]. rewrite Ht0, lstrip_nonspace by exact Hc.
    rewrite <- Ht0.
    destruct q0 as [|c0 q1].
    + simpl in *. injection Hq0 as -> ->. now exists t'.
    + simpl in Hq0. injection Hq0 as -> ->. simpl.
      exists t'. now rewrite <- app_assoc.
Qed.

Lemma startswith_app_l (a b p : str) :
  startswith a p = true -> startswith (a ++ b) p = true.
Proof.
  rewrite !startswith_iff. intros [t ->]. exists (t ++ b).
  now rewrite app_assoc.
Qed.

(** A text put after the code does not undo a start found in the trimmed
    code, and a text put before it does not undo an end. *)
Lemma startswith_strip_app (x y q : str) :
  q <> [] -> Forall (fun c => isspace c = false) q ->
  startswith (strip x) q = true -> startswith (strip (x ++ y)) q = true.
Proof.
  intros Hne Hq. rewrite !startswith_strip by exact Hq. intros H.
  destruct (lstrip x) as [|c t] eqn:E.
  - destruct q; [congruence | discriminate].
  - rewrite (lstrip_app_cons _ _ _ _ E). now apply startswith_app_l.
Qed.

Lemma endswith_strip_app (x y q : str) :
  q <> [] -> Forall (fun c => isspace c = false) q ->
  endswith (strip x) q = true -> endswith (strip (y ++ x)) q = true.
Proof.
  intros Hne Hq. rewrite !endswith_strip by exact Hq. intros H.
  rewrite rev_app_distr.
  destruct (lstrip (rev x)) as [|c t] eqn:E.
  - destruct q as [|c q]; [congruence|].
    simpl in H. destruct (rev q ++ [c]) eqn:E'; [|discriminate].
    now destruct (rev q).
  - rewrite (lstrip_app_cons _ _ _ _ E). now apply startswith_app_l.
Qed.

Lemma endswith_brace_after_prepend (code : str) :
  endswith (strip (py "digraph G {\n" ++ code)) (py "}") =
  endswith (strip code) (py "}").
Proof.
  rewrite !endswith_strip by (repeat constructor).
  rewrite rev_app_distr.
  destruct (lstrip (rev code)) as [|c t] eqn:E.
  - rewrite (lstrip_app_nil _ _ E). reflexivity.
  - rewrite (lstrip_app_cons _ _ _ _ E).
    change (rev (py "digraph G {\n")) with (nl :: rev (py "digraph G {")).
    apply startswith_app_notin.
    vm_compute. intuition discriminate.
Qed.

(** The DOT repair in closed form: both tests are tests on the input. *)
Lemma fix_dot_eq (code : str) :
  _fix_dot code =
    ((if dot_header_found code then [] else py "digraph G {\n") ++ code
       ++ (if endswith (strip code) (py "}") then [] else py "\n}"),
     (if dot_header_found code then []
      else [py "Missing graph declaration - adding 'digraph G {'"])
       ++ (if endswith (strip code) (py "}") then []
           else [py "Missing closing brace - adding"])).
Proof.
  unfold _fix_dot, dot_header_found.
  destruct (re_match true dot_header code).
  - destruct (endswith (strip code) (py "}")); cbn [negb];
      now rewrite ?app_nil_r.
  - rewrite endswith_brace_after_prepend.
    destruct (endswith (strip code) (py "}")); cbn [negb];
      now rewrite ?app_nil_r, <- ?app_assoc.
Qed.

(** The PlantUML repair in closed form. *)
Lemma fix_plantuml_eq (code : str) :
  _fix_plantuml code =
    ((if startswith (strip code) (py "@startuml") then [] else py "@startuml\n")
       ++ code
       ++ (if endswith (strip code) (py "@enduml") then [] else py "\n@enduml"),
     (if startswith (strip code) (py "@startuml") then []
      else [py "Missing @startuml tag - adding"])
       ++ (if endswith (strip code) (py "@enduml") then []
           else [py "Missing @enduml tag - adding"])).
Proof.
  unfold _fix_plantuml.
  destruct (startswith (strip code) (py "@startuml")) eqn:Hs; cbn [negb].
  - destruct (endswith (strip code) (py "@enduml")); cbn [negb];
      now rewrite ?app_nil_r.
  - rewrite endswith_enduml_after_prepend.
    destruct (endswith (strip code) (py "@enduml")); cbn [negb];
      now rewrite ?app_nil_r, <- ?app_assoc.
Qed.

Lemma startswith_strip_literal (p rest : str) (c : ascii) (q : str) :
  isspace c = false -> Forall (fun c => isspace c = false) q ->
  startswith (c :: p) q = true ->
  startswith (strip ((c :: p) ++ rest)) q = true.
Proof.
  intros Hc Hq H. rewrite startswith_strip by exact Hq.
  cbn [app]. rewrite lstrip_nonspace by exact Hc.
  now apply (startswith_app_l (c :: p) rest).
Qed.

Lemma endswith_strip_literal (p rest : str) (c : ascii) (q : str) :
  isspace c = false -> Forall (fun c => isspace c = false) q ->
  endswith (p ++ [c]) q = true ->
  endswith (strip (rest ++ p ++ [c])) q = true.
Proof.
  intros Hc Hq H. rewrite endswith_strip by exact Hq.
  rewrite !rev_app_distr. cbn [rev app]. rewrite lstrip_nonspace by exact Hc.
  unfold endswith in H. rewrite rev_app_distr in H. cbn [rev app] in H.
  now apply (startswith_app_l (c :: rev p) (rev rest)).
Qed.

(** X3: PlantUML code that has been repaired is left alone by a second
    repair, which finds nothing to report. *)
Theorem fix_plantuml_idempotent (code : str) :
  _fix_plantuml (fst (_fix_plantuml code)) = (fst (_fix_plantuml code), []).
Proof.
  rewrite (fix_plantuml_eq code). cbn [fst].
  set (s := startswith (strip code) (py "@startuml")).
  set (e := endswith (strip code) (py "@enduml")).
  set (code' := (if s then [] else py "@startuml\n") ++ code
                ++ (if e then [] else py "\n@enduml")).
  assert (Hs : startswith (strip code') (py "@startuml") = true).
  { unfold code'. destruct s eqn:Es.
    - cbn [app]. apply startswith_strip_app;
        [discriminate | repeat constructor | exact Es].
    - apply (startswith_strip_literal (py "startuml\n") _ "@"%char);
        [reflexivity | repeat constructor | reflexivity]. }
  assert (He : endswith (strip code') (py "@enduml") = true).
  { unfold code'. destruct e eqn:Ee.
    - rewrite app_nil_r. apply endswith_strip_app;
        [discriminate | repeat constructor | exact Ee].
    - rewrite app_assoc.
      apply (endswith_strip_literal (py "\n@endum") _ "l"%char);
        [reflexivity | repeat constructor | reflexivity]. }
  rewrite fix_plantuml_eq, Hs, He. cbn [app]. now rewrite app_nil_r.
Qed.

(* ================================================================= *)
(** ** What the matcher finds: the meaning of a pattern *)

Lemma skipn_app_eq {A : Type} (n : nat) (l w s : list A) :
  skipn n l = w ++ s -> skipn (n + length w) l = s.
Proof.
  intros H. rewrite Nat.add_comm, <- skipn_skipn, H.
  rewrite skipn_app, skipn_all, Nat.sub_diag. reflexivity.
Qed.

Lemma firstn_app_eq {A : Type} (n : nat) (l w s : list A) :
  skipn n l = w ++ s -> firstn (length w) (skipn n l) = w.
Proof.
  intros ->. rewrite firstn_app, firstn_all, Nat.sub_diag. simpl.
  apply app_nil_r.
Qed.

Lemma rep_lazy_elim p min s pos g k res :
  rep_lazy p min s pos g k = Some res ->
  exists j, min <= j /\ j <= length s /\
            forallb p (firstn j s) = true /\
            k (skipn j s) (pos + j) g = Some res.
Proof.
  revert min pos. induction s as [|x s IH]; intros min pos; simpl.
  - destruct min; [|discriminate].
    destruct (k [] pos g) eqn:E; [|discriminate].
    intros H. injection H as <-. exists 0. rewrite Nat.add_0_r.
    now repeat split.
  - assert (Hmore : (if p x then rep_lazy p (pred min) s (S pos) g k else None)
                    = Some res ->
                    exists j, min <= j /\ j <= S (length s) /\
                      forallb p (firstn j (x :: s)) = true /\
                      k (skipn j (x :: s)) (pos + j) g = Some res).
    { destruct (p x) eqn:Hp; [|discriminate]. intros H. apply IH in H.
      destruct H as [j [H1 [H2 [H3 H4]]]]. exists (S j).
      replace (pos + S j) with (S pos + j) by lia.
      repeat split; [lia | lia | | exact H4]. simpl. now rewrite Hp, H3. }
    destruct min; [|exact Hmore].
    destruct (k (x :: s) pos g) eqn:E; [|exact Hmore].
    intros H. injection H as <-. exists 0. rewrite Nat.add_0_r.
    repeat split; [lia | lia | exact E].
Qed.

Section Meaning.

Variable ic : bool.
Variable text : str.
Variable G : nat -> nat * nat -> Prop.

Lemma rep_sound (gr : bool) p min s pos g k res :
  (if gr then rep_greedy p min s pos g k else rep_lazy p min s pos g k)
    = Some res ->
  exists w s', s = w ++ s' /\ forallb p w = true /\ min <= length w /\
               k s' (pos + length w) g = Some res.
Proof.
  intros H.
  assert (He : exists j, min <= j /\ j <= length s /\
                 forallb p (firstn j s) = true /\
                 k (skipn j s) (pos + j) g = Some res).
  { destruct gr; [now apply rep_greedy_elim | now apply rep_lazy_elim]. }
  destruct He as [j [H1 [H2 [H3 H4]]]].
  exists (firstn j s), (skipn j s).
  rewrite firstn_skipn, length_firstn, Nat.min_l by lia.
  repeat split; [exact H3 | lia | exact H4].
Qed.

(** The matcher is sound: what it hands to its continuation is the rest of
    the input after a word that the pattern matches. *)
Lemma rmatch_meaning (r : regex) s pos g k res :
  skipn pos text = s -> groups_ok ic text G r -> groups_good G g ->
  rmatch ic r s pos g k = Some res ->
  exists w s' g',
    s = w ++ s' /\ matches ic r pos w /\ groups_good G g' /\
    k s' (pos + length w) g' = Some res.
Proof.
  revert s pos g k.
  induction r as [| |c|p|r1 IH1 r2 IH2|r1 IH1 r2 IH2|gr min p|n r1 IH1];
    intros s pos g k Hs Hok Hg; cbn [rmatch matches].
  - intros H. exists [], s, g. rewrite Nat.add_0_r. now repeat split.
  - destruct (pos =? 0) eqn:E; [|discriminate]. apply Nat.eqb_eq in E.
    intros H. exists [], s, g. rewrite Nat.add_0_r. now repeat split.
  - destruct s as [|x s]; [discriminate|].
    destruct (chr_matches ic c x) eqn:E; [|discriminate]. intros H.
    exists [x], s, g. replace (pos + length [x]) with (S pos) by (simpl; lia).
    repeat split; [now exists x | exact Hg | exact H].
  - destruct s as [|x s]; [discriminate|].
    destruct (p x) eqn:E; [|discriminate]. intros H.
    exists [x], s, g. replace (pos + length [x]) with (S pos) by (simpl; lia).
    repeat split; [now exists x | exact Hg | exact H].
  - destruct Hok as [Hok1 Hok2]. intros H.
    apply IH1 in H; [|exact Hs | exact Hok1 | exact Hg].
    destruct H as [w1 [s1 [g1 [E1 [M1 [G1 H]]]]]].
    apply IH2 in H; [| | exact Hok2 | exact G1].
    2:{ apply skipn_app_eq. now rewrite Hs. }
    destruct H as [w2 [s2 [g2 [E2 [M2 [G2 H]]]]]].
    exists (w1 ++ w2), s2, g2. rewrite length_app, Nat.add_assoc.
    repeat split; [now rewrite E1, E2, app_assoc | | exact G2 | exact H].
    now exists w1, w2.
  - destruct Hok as [Hok1 Hok2].
    destruct (rmatch ic r1 s pos g k) eqn:E.
    + intros H. injection H as <-.
      apply IH1 in E; [|exact Hs | exact Hok1 | exact Hg].
      destruct E as [w [s' [g' [E1 [M1 [G1 H]]]]]].
      exists w, s', g'. repeat split; [exact E1 | now left | exact G1 | exact H].
    + intros H. apply IH2 in H; [|exact Hs | exact Hok2 | exact Hg].
      destruct H as [w [s' [g' [E1 [M1 [G1 H]]]]]].
      exists w, s', g'. repeat split; [exact E1 | now right | exact G1 | exact H].
  - intros H.
    assert (H' : (if gr then rep_greedy p min s pos g k
                  else rep_lazy p min s pos g k) = Some res)
      by (destruct gr; exact H).
    apply rep_sound in H'. destruct H' as [w [s' [E1 [Hp [Hm H']]]]].
    exists w, s', g. now repeat split.
  - destruct Hok as [Hn Hok1]. intros H.
    apply IH1 in H; [|exact Hs | exact Hok1 | exact Hg].
    destruct H as [w [s' [g' [E1 [M1 [G1 H]]]]]].
    exists w, s', ((n, (pos, pos + length w)) :: g').
    repeat split; [exact E1 | exact M1 | | exact H].
    intros n0 sp. cbn [lookup]. destruct (n0 =? n) eqn:E.
    + apply Nat.eqb_eq in E. subst n0. intros Hsp. injection Hsp as <-.
      apply Hn; [exact M1|]. apply firstn_app_eq with (s := s').
      now rewrite Hs.
    + apply G1.
Qed.

End Meaning.

Section Completeness.

Variable ic : bool.

Lemma rep_greedy_complete p w : forall min s' pos g (k : cont),
  forallb p w = true -> min <= length w ->
  k s' (pos + length w) g <> None ->
  rep_greedy p min (w ++ s') pos g k <> None.
Proof.
  induction w as [|x w IH]; intros min s' pos g k Hp Hm Hk.
  - simpl in Hm. replace min with 0 by lia.
    rewrite Nat.add_0_r in Hk. destruct s' as [|y s']; simpl; [exact Hk|].
    destruct (p y); [|exact Hk].
    destruct (rep_greedy p 0 s' (S pos) g k); [discriminate | exact Hk].
  - simpl in Hp. apply andb_true_iff in Hp. destruct Hp as [Hx Hp].
    cbn [app rep_greedy]. rewrite Hx.
    assert (Hr : rep_greedy p (pred min) (w ++ s') (S pos) g k <> None).
    { apply IH; [exact Hp | simpl in Hm; lia|].
      now replace (S pos + length w) with (pos + length (x :: w))
        by (simpl; lia). }
    destruct (rep_greedy p (pred min) (w ++ s') (S pos) g k);
      [discriminate | congruence].
Qed.

Lemma rep_lazy_complete p w : forall min s' pos g (k : cont),
  forallb p w = true -> min <= length w ->
  k s' (pos + length w) g <> None ->
  rep_lazy p min (w ++ s') pos g k <> None.
Proof.
  induction w as [|x w IH]; intros min s' pos g k Hp Hm Hk.
  - simpl in Hm. replace min with 0 by lia.
    rewrite Nat.add_0_r in Hk. destruct s' as [|y s']; simpl.
    + destruct (k [] pos g); [discriminate | congruence].
    + destruct (k (y :: s') pos g); [discriminate | congruence].
  - simpl in Hp. apply andb_true_iff in Hp. destruct Hp as [Hx Hp].
    cbn [app rep_lazy]. rewrite Hx.
    assert (Hr : rep_lazy p (pred min) (w ++ s') (S pos) g k <> None).
    { apply IH; [exact Hp | simpl in Hm; lia|].
      now replace (S pos + length w) with (pos + length (x :: w))
        by (simpl; lia). }
    destruct min; [|exact Hr].
    destruct (k (x :: w ++ s') pos g); [discriminate | exact Hr].
Qed.

(** The matcher is complete: when the pattern matches a word at the head
    of the input and the continuation accepts what follows, backtracking
    finds some match. *)
Lemma rmatch_complete (r : regex) : forall w s' pos g (k : cont),
  matches ic r pos w ->
  (forall g', k s' (pos + length w) g' <> None) ->
  rmatch ic r (w ++ s') pos g k <> None.
Proof.
  induction r as [| |c|p|r1 IH1 r2 IH2|r1 IH1 r2 IH2|gr min p|n r1 IH1];
    intros w s' pos g k; cbn [rmatch matches].
  - intros -> Hk. specialize (Hk g). now rewrite Nat.add_0_r in Hk.
  - intros [-> ->] Hk. specialize (Hk g). now rewrite Nat.add_0_r in Hk.
  - intros [x [-> Hx]] Hk. cbn [app]. rewrite Hx.
    specialize (Hk g). simpl in Hk.
    now replace (pos + 1) with (S pos) in Hk by lia.
  - intros [x [-> Hx]] Hk. cbn [app]. rewrite Hx.
    specialize (Hk g). simpl in Hk.
    now replace (pos + 1) with (S pos) in Hk by lia.
  - intros [w1 [w2 [-> [M1 M2]]]] Hk. rewrite <- app_assoc.
    apply IH1; [exact M1|]. intros g1. apply IH2; [exact M2|].
    intros g2. rewrite <- Nat.add_assoc, <- length_app. apply Hk.
  - intros M Hk. destruct (rmatch ic r1 (w ++ s') pos g k) eqn:E;
      [discriminate|].
    destruct M as [M | M].
    + exfalso. revert E. now apply IH1.
    + now apply IH2.
  - intros [Hp Hm] Hk. destruct gr.
    + apply rep_greedy_complete; [exact Hp | exact Hm | apply Hk].
    + apply rep_lazy_complete; [exact Hp | exact Hm | apply Hk].
  - intros M Hk. apply IH1; [exact M|]. intros g'. apply Hk.
Qed.

End Completeness.

Lemma groups_ok_trivial (ic : bool) (text : str) (r : regex) :
  groups_ok ic text (fun _ _ => True) r.
Proof. induction r; simpl; auto. Qed.

(** [re.match] finds a match exactly when the pattern matches a word at
    the head of the text. *)
Lemma re_match_found (ic : bool) (r : regex) (text : str) :
  re_match ic r text <> None <->
  exists w rest, text = w ++ rest /\ matches ic r 0 w.
Proof.
  unfold re_match, match_at. split.
  - destruct (rmatch ic r text 0 [] accept) as [res|] eqn:E; [|congruence].
    intros _.
    apply (rmatch_meaning ic text (fun _ _ => True)) in E;
      [|reflexivity | apply groups_ok_trivial | intros n sp _; exact I].
    destruct E as [w [s' [g' [E1 [M _]]]]]. now exists w, s'.
  - intros [w [rest [-> M]]].
    assert (H : rmatch ic r (w ++ rest) 0 [] accept <> None).
    { apply rmatch_complete; [exact M|]. intros g'. discriminate. }
    destruct (rmatch ic r (w ++ rest) 0 [] accept) as [[e g]|];
      [discriminate | congruence].
Qed.

Lemma dot_header_found_iff (code : str) :
  dot_header_found code = true <->
  exists w rest, code = w ++ rest /\ matches true dot_header 0 w.
Proof.
  rewrite <- re_match_found. unfold dot_header_found.
  destruct (re_match true dot_header code); split; congruence.
Qed.

Lemma dot_header_found_app (code t : str) :
  dot_header_found code = true -> dot_header_found (code ++ t) = true.
Proof.
  rewrite !dot_header_found_iff. intros [w [rest [-> M]]].
  exists w, (rest ++ t). now rewrite app_assoc.
Qed.

Lemma dot_header_found_prefixed (rest : str) :
  dot_header_found (py "digraph G {\n" ++ rest) = true.
Proof. reflexivity. Qed.

(** X1: the DOT repair puts [digraph G {] and a newline in front exactly
    when the header pattern matches no word at the head of the input,
    puts a newline and a closing brace at the end exactly when the trimmed
    input does not end with a closing brace, and records one issue for
    each, the one for the header first.  The header pattern asks for
    whitespace after [graph] but for no name: the name is a run of word
    characters that may be empty, so [graph {a}] is left as it is, while
    [graph{a}] is not. *)
Theorem fix_dot_spec (code : str) :
  _fix_dot code =
    ((if dot_header_found code then [] else py "digraph G {\n") ++ code
       ++ (if endswith (strip code) (py "}") then [] else py "\n}"),
     (if dot_header_found code then []
      else [py "Missing graph declaration - adding 'digraph G {'"])
       ++ (if endswith (strip code) (py "}") then []
           else [py "Missing closing brace - adding"]))
  /\ (dot_header_found code = true <->
      exists w rest, code = w ++ rest /\ matches true dot_header 0 w)
  /\ _fix_dot (py "A -> B;") =
       (py "digraph G {\nA -> B;\n}",
        [py "Missing graph declaration - adding 'digraph G {'";
         py "Missing closing brace - adding"])
  /\ _fix_dot (py "graph {a}") = (py "graph {a}", [])
  /\ _fix_dot (py "graph{a}") =
       (py "digraph G {\ngraph{a}",
        [py "Missing graph declaration - adding 'digraph G {'"]).
Proof.
  split; [apply fix_dot_eq|]. split; [apply dot_header_found_iff|].
  split; [vm_compute; reflexivity|].
  split; vm_compute; reflexivity.
Qed.

(** X2: DOT code that has been repaired is left alone by a second repair,
    which finds nothing to report. *)
Theorem fix_dot_idempotent (code : str) :
  _fix_dot (fst (_fix_dot code)) = (fst (_fix_dot code), []).
Proof.
  rewrite (fix_dot_eq code). cbn [fst].
  set (h := dot_header_found code).
  set (e := endswith (strip code) (py "}")).
  set (code' := (if h then [] else py "digraph G {\n") ++ code
                ++ (if e then [] else py "\n}")).
  assert (Hh : dot_header_found code' = true).
  { unfold code'. destruct h eqn:Eh.
    - cbn [app]. now apply dot_header_found_app.
    - apply dot_header_found_prefixed. }
  assert (He : endswith (strip code') (py "}") = true).
  { unfold code'. destruct e eqn:Ee.
    - rewrite app_nil_r. apply endswith_strip_app;
        [discriminate | repeat constructor | exact Ee].
    - rewrite app_assoc.
      apply (endswith_strip_literal (py "\n") _ "}"%char);
        [reflexivity | repeat constructor | reflexivity]. }
  rewrite fix_dot_eq, Hh, He. cbn [app]. now rewrite app_nil_r.
Qed.

(* ================================================================= *)
(** ** What repaired Mermaid code always satisfies *)

Lemma split_no_sep (sep : ascii) (s : str) :
  Forall (fun l => ~ In sep l) (split sep s).
Proof.
  induction s as [|c s IH]; cbn [split].
  - constructor; [intros [] | constructor].
  - destruct (Ascii.eqb c sep) eqn:E.
    + constructor; [intros [] | exact IH].
    + destruct (split sep s) as [|l ls].
      { constructor; [|constructor].
        intros [-> | []]. now rewrite Ascii.eqb_refl in E. }
      inversion IH as [|? ? Hl Hls]; subst. constructor; [|exact Hls].
      intros [-> | H]; [now rewrite Ascii.eqb_refl in E | now apply Hl].
Qed.

Lemma split_app_sep (sep : ascii) (l rest : str) :
  ~ In sep l -> split sep (l ++ sep :: rest) = l :: split sep rest.
Proof.
  induction l as [|c l IH]; intros Hl; cbn [app split].
  - now rewrite Ascii.eqb_refl.
  - destruct (Ascii.eqb c sep) eqn:E.
    + apply ascii_eqb_true in E. subst. exfalso. apply Hl. now left.
    + rewrite IH; [reflexivity|]. intros H. apply Hl. now right.
Qed.

Lemma split_single (sep : ascii) (l : str) :
  ~ In sep l -> split sep l = [l].
Proof.
  induction l as [|c l IH]; intros Hl; cbn [split]; [reflexivity|].
  destruct (Ascii.eqb c sep) eqn:E.
  - apply ascii_eqb_true in E. subst. exfalso. apply Hl. now left.
  - rewrite IH; [reflexivity|]. intros H. apply Hl. now right.
Qed.

(** Joining lines and splitting again gives the lines back. *)
Lemma split_join_inv (ls : list str) :
  ls <> [] -> Forall (fun l => ~ In nl l) ls ->
  split nl (join [nl] ls) = ls.
Proof.
  induction ls as [|l ls IH]; intros Hne Hls; [congruence|].
  inversion Hls as [|? ? Hl Hrest]; subst.
  destruct ls as [|l' ls].
  - simpl. now apply split_single.
  - rewrite join_cons by discriminate. cbn [app].
    rewrite split_app_sep by exact Hl. f_equal.
    apply IH; [discriminate | exact Hrest].
Qed.

Lemma count_zero_iff (c : ascii) (s : str) : count c s = 0 <-> ~ In c s.
Proof.
  unfold count. induction s as [|x s IH]; simpl; [tauto|].
  destruct (Ascii.eqb c x) eqn:E; simpl.
  - apply ascii_eqb_true in E. subst. split; [discriminate|].
    intros H. exfalso. apply H. now left.
  - rewrite IH. split.
    + intros H [-> | H']; [now rewrite Ascii.eqb_refl in E | now apply H].
    + intros H H'. apply H. now right.
Qed.

(** The cleaning of node ids keeps the number of every character of the
    class of node ids. *)
Lemma clean_node_ids_count (c : ascii) (line : str) :
  node_char c = true -> count c (clean_node_ids line) = count c line.
Proof.
  intros Hc. rewrite <- (count_filter_class c node_char) by exact Hc.
  rewrite clean_node_ids_keeps. now apply count_filter_class.
Qed.

Lemma repaired_line_no_nl (line : str) :
  ~ In nl line -> ~ In nl (repaired_line line).
Proof.
  rewrite <- !count_zero_iff. unfold repaired_line. intros H.
  rewrite clean_node_ids_count by reflexivity.
  rewrite count_app, H. simpl.
  apply count_zero_iff. intros Hin. apply repeat_spec in Hin. discriminate.
Qed.

Lemma count_repeat_other (c d : ascii) (n : nat) :
  c <> d -> count c (repeat d n) = 0.
Proof.
  intros H. apply count_zero_iff. intros Hin.
  apply repeat_spec in Hin. congruence.
Qed.

Lemma repaired_line_balance (line : str) :
  open_count (repaired_line line) = open_count line /\
  close_count (repaired_line line)
    = close_count line + (open_count line - close_count line).
Proof.
  unfold open_count, close_count, repaired_line.
  rewrite !clean_node_ids_count by reflexivity.
  rewrite !count_app, count_repeat.
  rewrite !count_repeat_other by discriminate.
  unfold open_count, close_count. lia.
Qed.

Lemma guard_quiet_after_prefix (x : str) :
  any_in guard_keywords (firstn 50 (lower (py "graph TD\n" ++ x))) = true.
Proof.
  unfold lower. rewrite map_app.
  change (map lower_char (py "graph TD\n")) with (py "graph td\n").
  change (firstn 50 (py "graph td\n" ++ ?y))
    with (py "graph td\n" ++ firstn 41 y).
  unfold any_in, guard_keywords. cbn [existsb].
  replace (contains (py "graph") _) with true; [reflexivity|].
  symmetry. apply contains_iff.
  now exists [], (py " td\n" ++ firstn 41 (map lower_char x)).
Qed.

(** X4: whatever the input, the fixed Mermaid code has one of the keywords
    of the final guard among its first 50 characters, has the lines of the
    input or one line more, and has no line on which the opening brackets
    outnumber the closing ones. *)
Theorem fix_mermaid_postconditions (code : str) :
  any_in guard_keywords (firstn 50 (lower (fst (_fix_mermaid code)))) = true /\
  (length (split nl (fst (_fix_mermaid code))) = length (split nl code) \/
   length (split nl (fst (_fix_mermaid code))) = S (length (split nl code))) /\
  forall line, In line (split nl (fst (_fix_mermaid code))) ->
               open_count line <= close_count line.
Proof.
  split.
  - rewrite fix_mermaid_eq. cbv zeta.
    destruct (guard_fires _) eqn:E; cbn [fst].
    + apply guard_quiet_after_prefix.
    + unfold guard_fires in E. now apply negb_false_iff in E.
  - destruct (fix_mermaid_lines code) as [pre [Hpre ->]].
    assert (Hsplit : split nl (join [nl] (pre ++ map repaired_line (split nl code)))
                     = pre ++ map repaired_line (split nl code)).
    { apply split_join_inv.
      - destruct (split_nonempty nl code) as [l [ls ->]].
        destruct pre; discriminate.
      - apply Forall_app. split.
        + destruct Hpre as [-> | ->]; [constructor|].
          constructor; [|constructor]. vm_compute. intuition discriminate.
        + apply Forall_forall. intros x Hx. apply in_map_iff in Hx.
          destruct Hx as [l [<- Hl]]. apply repaired_line_no_nl.
          pose proof (split_no_sep nl code) as Hn.
          rewrite Forall_forall in Hn. now apply Hn. }
    rewrite Hsplit. split.
    + rewrite length_app, length_map.
      destruct Hpre as [-> | ->]; [now left | now right].
    + intros line Hin. apply in_app_or in Hin. destruct Hin as [Hin | Hin].
      * destruct Hpre as [-> | ->]; [destruct Hin|].
        destruct Hin as [<- | []]. vm_compute. lia.
      * apply in_map_iff in Hin. destruct Hin as [l [<- _]].
        destruct (repaired_line_balance l) as [-> ->]. lia.
Qed.

(* ================================================================= *)
(** ** The blocks of the density strategy, exactly *)

Lemma gib_step_runs_inv (lines done rest : list str) (x : str)
    (st : gib_state) :
  lines = done ++ x :: rest ->
  gib_runs_inv lines done st ->
  gib_runs_inv lines (done ++ [x]) (gib_step lines st (length done, x)).
Proof.
  intros Hl [Hb [A [Hd [HA [Hf [Hn Hs]]]]]]. unfold gib_step.
  destruct (_is_gibberish_line x) eqn:Hx.
  - split; [exact Hb|].
    cbn [gib_blocks current_block start_line gibberish_count].
    exists A. split; [now rewrite Hd, <- app_assoc|]. split; [exact HA|].
    split; [rewrite forallb_app, Hf; simpl; now rewrite Hx|].
    split; [rewrite length_app, Hn; reflexivity|]. intros _.
    destruct (current_block st) eqn:E.
    + rewrite app_nil_r in Hd. now subst.
    + apply Hs. discriminate.
  - split.
    + cbn [gib_blocks].
      destruct (3 <=? length (current_block st)) eqn:E3; [|exact Hb].
      destruct (2 <=? gibberish_count st); [|exact Hb]. cbn [andb].
      apply Forall_app. split; [exact Hb|]. constructor; [|constructor].
      apply Nat.leb_le in E3.
      assert (Hne : current_block st <> []).
      { intros E. rewrite E in E3. simpl in E3. lia. }
      exists A, (current_block st), x, rest.
      split; [now rewrite Hl, Hd, <- app_assoc|].
      split; [exact HA|]. split; [exact Hf|]. split; [exact E3|].
      split; [exact Hx|].
      unfold run_block. rewrite (Hs Hne), line_offset_firstn.
      * replace (firstn (length A) lines) with A; [reflexivity|].
        rewrite Hl, Hd, <- app_assoc, firstn_app, firstn_all, Nat.sub_diag.
        simpl. now rewrite app_nil_r.
      * rewrite Hl, Hd, !length_app. lia.
    + cbn [current_block gibberish_count start_line].
      exists (done ++ [x]). split; [now rewrite app_nil_r|].
      split; [right; now exists done, x|].
      split; [reflexivity|]. split; [reflexivity|].
      intros H. exfalso. now apply H.
Qed.

Lemma gib_loop_runs_inv (lines rest done : list str) (st : gib_state) :
  lines = done ++ rest ->
  gib_runs_inv lines done st ->
  gib_runs_inv lines lines
    (fold_left (gib_step lines)
               (combine (seq (length done) (length rest)) rest) st).
Proof.
  revert done st. induction rest as [|x rest IH]; intros done st Hl Hinv.
  - simpl. rewrite app_nil_r in Hl. now subst done.
  - cbn [length seq combine fold_left].
    replace (S (length done)) with (length (done ++ [x]))
      by (rewrite length_app; simpl; lia).
    apply IH.
    + now rewrite <- app_assoc.
    + now apply gib_step_runs_inv with (rest := rest).
Qed.

Lemma gibberish_blocks_are_runs (text : str) (b : Block) :
  In b (_detect_gibberish_blocks text) -> flagged_run (split nl text) b.
Proof.
  unfold _detect_gibberish_blocks, enumerate. intros Hb.
  pose proof (gib_loop_runs_inv (split nl text) (split nl text) []
                (mkGib [] [] (-1)%Z 0) eq_refl) as H.
  cbn [length] in H. destruct H as [H _].
  - split; [constructor|]. exists [].
    repeat split; [now left | intros H; now exfalso; apply H].
  - rewrite Forall_forall in H. now apply H.
Qed.

(** X5: the density strategy finds a block exactly for every run of at
    least three flagged lines that begins the text or follows a line that
    is not flagged, and that a line that is not flagged follows; the block
    spans the run, and its code is the run itself. *)
Theorem gibberish_blocks_exact (text : str) (b : Block) :
  In b (_detect_gibberish_blocks text) <->
  exists A R x rest,
    split nl text = A ++ R ++ x :: rest /\
    (A = [] \/ exists A' y, A = A' ++ [y] /\ _is_gibberish_line y = false) /\
    forallb _is_gibberish_line R = true /\
    3 <= length R /\
    _is_gibberish_line x = false /\
    b = mkBlock (offset A) (offset A + length (join [nl] R))
                (_infer_language (join [nl] R)) (join [nl] R) (join [nl] R)
                (py "gibberish_detected").
Proof.
  split.
  - intros H. apply gibberish_blocks_are_runs in H. exact H.
  - intros [A [R [x [rest [Hl [HA [HR [H3 [Hx ->]]]]]]]]].
    now apply gibberish_run_emitted with (x := x) (rest := rest).
Qed.

(* ================================================================= *)
(** ** What language inference does not look at *)

Lemma lower_char_idem (c : ascii) : lower_char (lower_char c) = lower_char c.
Proof. destruct c as [[] [] [] [] [] [] [] []]; reflexivity. Qed.

Lemma isspace_lower_char (c : ascii) : isspace (lower_char c) = isspace c.
Proof. destruct c as [[] [] [] [] [] [] [] []]; reflexivity. Qed.

Lemma eqb_lower_char_dash (x : ascii) :
  Ascii.eqb "-" (lower_char x) = Ascii.eqb "-" x.
Proof. destruct x as [[] [] [] [] [] [] [] []]; reflexivity. Qed.

Lemma eqb_lower_char_gt (x : ascii) :
  Ascii.eqb ">" (lower_char x) = Ascii.eqb ">" x.
Proof. destruct x as [[] [] [] [] [] [] [] []]; reflexivity. Qed.

Lemma lower_idem (s : str) : lower (lower s) = lower s.
Proof.
  unfold lower. rewrite map_map. apply map_ext. apply lower_char_idem.
Qed.

Lemma lstrip_lower (s : str) : lstrip (lower s) = lower (lstrip s).
Proof.
  induction s as [|c s IH]; [reflexivity|].
  simpl. rewrite isspace_lower_char. now destruct (isspace c).
Qed.

Lemma strip_lower (s : str) : strip (lower s) = lower (strip s).
Proof.
  unfold strip, rstrip, lower.
  rewrite <- map_rev. fold (lower (rev s)). rewrite lstrip_lower.
  unfold lower. rewrite <- map_rev. fold (lower (rev (lstrip (rev s)))).
  apply lstrip_lower.
Qed.

(** A trimmed text is empty or begins and ends with a character that is
    not whitespace, and trimming it again changes nothing. *)
Lemma lstrip_head (s : str) :
  lstrip s = [] \/ exists c t, lstrip s = c :: t /\ isspace c = false.
Proof.
  induction s as [|c s IH]; [now left|]. simpl.
  destruct (isspace c) eqn:E; [exact IH|]. right. now exists c, s.
Qed.

Lemma strip_idem (s : str) : strip (strip s) = strip s.
Proof.
  unfold strip at 2 3.
  destruct (lstrip_head (rev s)) as [E | [d [t [E Hd]]]].
  - unfold rstrip. rewrite E. reflexivity.
  - assert (Hr : rstrip s = rev t ++ [d]).
    { unfold rstrip. now rewrite E. }
    rewrite Hr.
    destruct (lstrip_app_keep (rev t) [] d Hd) as [a' Ha'].
    rewrite Ha'.
    destruct (lstrip_head (rev t ++ [d])) as [E' | [c [t' [E' Hc]]]].
    + rewrite Ha' in E'. now destruct a'.
    + unfold strip.
      assert (Hrs : rstrip (a' ++ [d]) = a' ++ [d]).
      { unfold rstrip. rewrite rev_app_distr. cbn [rev app].
        rewrite lstrip_nonspace by exact Hd. cbn [rev].
        now rewrite rev_involutive. }
      rewrite Hrs. rewrite <- Ha', E'. now apply lstrip_nonspace.
Qed.

Lemma startswith_lower_fixed (p s : str) :
  (forall a x, In a p -> Ascii.eqb a (lower_char x) = Ascii.eqb a x) ->
  startswith (lower s) p = startswith s p.
Proof.
  revert s. induction p as [|a p IH]; intros s Hp; [reflexivity|].
  destruct s as [|x s]; [reflexivity|]. cbn [lower map startswith].
  rewrite (Hp a x) by now left. fold (lower s).
  rewrite IH; [reflexivity|]. intros b y Hb. apply Hp. now right.
Qed.

Lemma contains_lower_fixed (p s : str) :
  (forall a x, In a p -> Ascii.eqb a (lower_char x) = Ascii.eqb a x) ->
  contains p (lower s) = contains p s.
Proof.
  intros Hp. induction s as [|x s IH].
  - reflexivity.
  - change (lower (x :: s)) with (lower_char x :: lower s).
    cbn [contains]. rewrite IH.
    change (lower_char x :: lower s) with (lower (x :: s)).
    now rewrite startswith_lower_fixed.
Qed.

Lemma edge_operator_insensitive (p c : str) :
  p = py "->" \/ p = py "--" ->
  contains p c = contains p (lower (strip c)).
Proof.
  intros Hp. rewrite contains_lower_fixed.
  - symmetry. apply contains_strip.
    + destruct Hp as [-> | ->]; discriminate.
    + destruct Hp as [-> | ->]; repeat constructor.
  - intros a x Ha.
    destruct Hp as [-> | ->]; simpl in Ha;
      destruct Ha as [<- | [<- | []]];
      (apply eqb_lower_char_dash || apply eqb_lower_char_gt).
Qed.

(** The language depends on the code only through its lowered, trimmed
    form. *)
Lemma infer_language_of_lowered (c : str) :
  _infer_language c = _infer_language (lower (strip c)).
Proof.
  unfold _infer_language.
  rewrite (edge_operator_insensitive (py "->") c) by now left.
  rewrite (edge_operator_insensitive (py "--") c) by now right.
  rewrite (edge_operator_insensitive (py "->") (lower (strip c))) by now left.
  rewrite (edge_operator_insensitive (py "--") (lower (strip c))) by now right.
  rewrite !strip_lower, !lower_idem, !strip_idem. reflexivity.
Qed.

(** X6: two codes that agree up to the case of their letters and up to the
    whitespace around them are given the same language. *)
Theorem infer_language_insensitive (c1 c2 : str) :
  lower (strip c1) = lower (strip c2) ->
  _infer_language c1 = _infer_language c2.
Proof.
  intros H.
  rewrite (infer_language_of_lowered c1), (infer_language_of_lowered c2).
  now rewrite H.
Qed.

Lemma infer_language_insensitive_witness :
  _infer_language (py "  GRAPH td\n A --> B \n") =
  _infer_language (py "graph TD\n a --> b").
Proof.
  apply (infer_language_insensitive (py "  GRAPH td\n A --> B \n")
           (py "graph TD\n a --> b")).
  vm_compute. reflexivity.
Defined.

(* ================================================================= *)
(** ** The language of a detected block *)

Lemma patterns_groups_ok (ic : bool) (text : str) (r : regex) :
  In r (standard_patterns ++ nonstandard_patterns) ->
  groups_ok ic text (tag_span text) r.
Proof.
  assert (Htag : forall pos w,
            matches ic (Rep true 1 isword) pos w ->
            firstn (length w) (skipn pos text) = w ->
            tag_span text 1 (pos, pos + length w)).
  { intros pos w [Hw Hl] Hf _. cbn [fst snd]. split; [lia|].
    unfold slice. replace (pos + length w - pos) with (length w) by lia.
    now rewrite Hf. }
  assert (Hbody : forall pos (w : str), tag_span text 2 (pos, pos + length w)).
  { intros pos w H. discriminate. }
  simpl. intros [<- | [<- | [<- | [<- | [<- | []]]]]]; simpl;
    repeat split; auto; try discriminate;
    match goal with
    | H : forallb isword ?w = true /\ _, H0 : firstn _ _ = ?w |- _ =>
        destruct (Htag _ w H H0 eq_refl) as [? ?]; assumption
    end.
Qed.

Lemma finditer_tag (ic : bool) (r : regex) (text : str) (m : Match)
    (a b : nat) :
  In r (standard_patterns ++ nonstandard_patterns) ->
  In m (finditer ic r text) ->
  lookup 1 (m_groups m) = Some (a, b) ->
  a < b /\ forallb isword (slice text a b) = true.
Proof.
  intros Hr Hm Hg. apply finditer_In in Hm. destruct Hm as [d [Hd Hm]].
  unfold match_at in Hm.
  destruct (rmatch ic r (skipn d text) d [] accept) as [[e g]|] eqn:E;
    [|discriminate].
  injection Hm as <-. cbn [m_groups] in Hg.
  apply (rmatch_meaning ic text (tag_span text)) in E;
    [|reflexivity | now apply patterns_groups_ok | intros n sp H; discriminate].
  destruct E as [w [s' [g' [_ [_ [Hgood Ha]]]]]].
  unfold accept in Ha. injection Ha as _ <-.
  exact (Hgood 1 (a, b) Hg eq_refl).
Qed.

Lemma matched_block_language (ic : bool) (r : regex) (text fmt : str)
    (m : Match) :
  In r (standard_patterns ++ nonstandard_patterns) ->
  In m (finditer ic r text) ->
  language (block_of_match text fmt m)
    = _infer_language (code (block_of_match text fmt m)) \/
  (language (block_of_match text fmt m) <> [] /\
   forallb isword (language (block_of_match text fmt m)) = true /\
   contains (language (block_of_match text fmt m)) text = true).
Proof.
  intros Hr Hm. unfold block_of_match. cbn [language code].
  set (g2 := match group text m 2 with Some b => b | None => [] end).
  assert (Hinf : _infer_language g2 = _infer_language (strip g2)).
  { rewrite (infer_language_of_lowered (strip g2)), strip_idem.
    apply infer_language_of_lowered. }
  unfold group.
  destruct (lookup 1 (m_groups m)) as [[a b]|] eqn:E1; [|now left].
  destruct (finditer_tag ic r text m a b Hr Hm E1) as [Hab Hw].
  destruct (slice text a b) as [|c l] eqn:Es; [now left|].
  right. split; [discriminate|]. split; [exact Hw|].
  apply contains_iff. exists (firstn a text), (skipn b text).
  rewrite <- Es. unfold slice.
  rewrite <- (firstn_skipn a text) at 1. f_equal.
  rewrite <- (firstn_skipn (b - a) (skipn a text)) at 1. f_equal.
  rewrite skipn_skipn. f_equal. lia.
Qed.

(** X7: the language of a detected block is the language inferred from its
    code, unless the block carries a tag, which is then a non-empty run of
    word characters found in the text. *)
Theorem detect_blocks_language (text : str) (b : Block) :
  In b (detect_blocks text) ->
  language b = _infer_language (code b) \/
  (language b <> [] /\ forallb isword (language b) = true /\
   contains (language b) text = true).
Proof.
  unfold detect_blocks. intros H. apply deduplicate_In in H.
  rewrite !in_app_iff, !in_flat_map in H.
  destruct H as [[[r [Hr Hb]] | [r [Hr Hb]]] | Hb].
  - apply in_map_iff in Hb. destruct Hb as [m [<- Hm]].
    apply matched_block_language with (ic := false) (r := r); [|exact Hm].
    apply in_or_app. now left.
  - apply in_map_iff in Hb. destruct Hb as [m [<- Hm]].
    apply matched_block_language with (ic := true) (r := r); [|exact Hm].
    apply in_or_app. now right.
  - left. apply gibberish_blocks_are_runs in Hb.
    destruct Hb as [A [R [x [rest [_ [_ [_ [_ [_ ->]]]]]]]]]. reflexivity.
Qed.

Lemma detect_blocks_language_witness :
  py "plantuml" = _infer_language (py "@startuml\nactor User\n@enduml") \/
  (py "plantuml" <> [] /\ forallb isword (py "plantuml") = true /\
   contains (py "plantuml")
     (py "[code lang=plantuml]\n@startuml\nactor User\n@enduml\n[/code]") = true).
Proof.
  apply (detect_blocks_language
           (py "[code lang=plantuml]\n@startuml\nactor User\n@enduml\n[/code]")
           (mkBlock 0 57 (py "plantuml")
                    (py "@startuml\nactor User\n@enduml")
                    (py "[code lang=plantuml]\n@startuml\nactor User\n@enduml\n[/code]")
                    (py "nonstandard"))).
  vm_compute. left. reflexivity.
Defined.

(* ================================================================= *)
(** ** Deduplicating what is already deduplicated *)

Lemma sort_blocks_ordered (l : list Block) :
  StronglySorted before l -> Forall nonempty_span l -> sort_blocks l = l.
Proof.
  induction 1 as [|x l Hs IH Hx]; intros Hg; [reflexivity|].
  inversion Hg as [|? ? Hgx Hgl]; subst.
  cbn [sort_blocks fold_right]. fold (sort_blocks l). rewrite (IH Hgl).
  destruct l as [|y l]; [reflexivity|]. cbn [insert_block].
  replace (key_leb (sort_key x) (sort_key y)) with true; [reflexivity|].
  symmetry. apply key_le_iff. left.
  inversion Hx as [|? ? Hxy _]; subst.
  unfold before, nonempty_span in *. lia.
Qed.

Lemma sweep_keeps_ordered (rest acc : list Block) (l0 : Block) :
  StronglySorted before (l0 :: rest) ->
  fold_left sweep rest (acc ++ [l0]) = acc ++ l0 :: rest.
Proof.
  revert acc l0. induction rest as [|b rest IH]; intros acc l0 Hs.
  - reflexivity.
  - inversion Hs as [|? ? Hs' Hl0]; subst.
    inversion Hl0 as [|? ? Hb _]; subst.
    cbn [fold_left]. unfold sweep at 2. rewrite last_last.
    replace (end_pos l0 <=? start_pos b) with true
      by (symmetry; now apply Nat.leb_le).
    rewrite (IH (acc ++ [l0]) b Hs'). now rewrite <- app_assoc.
Qed.

Lemma deduplicate_ordered_id (blocks : list Block) :
  StronglySorted before blocks -> Forall nonempty_span blocks ->
  _deduplicate_blocks blocks = blocks.
Proof.
  intros Hs Hg. unfold _deduplicate_blocks.
  rewrite (sort_blocks_ordered blocks Hs Hg).
  destruct blocks as [|first rest]; [reflexivity|].
  exact (sweep_keeps_ordered rest [] first Hs).
Qed.

(** X8: deduplication only selects among the blocks it is given; when
    these have non-empty spans its result is in order, is left as it is by
    a second deduplication, and a list that is already in order without
    overlap comes back unchanged. *)
Theorem deduplicate_blocks_stable (blocks : list Block) :
  Forall (fun b => start_pos b < end_pos b) blocks ->
  (forall b, In b (_deduplicate_blocks blocks) -> In b blocks) /\
  StronglySorted (fun a b => end_pos a <= start_pos b)
                 (_deduplicate_blocks blocks) /\
  _deduplicate_blocks (_deduplicate_blocks blocks)
    = _deduplicate_blocks blocks /\
  (StronglySorted (fun a b => end_pos a <= start_pos b) blocks ->
   _deduplicate_blocks blocks = blocks).
Proof.
  intros Hg. destruct (deduplicate_ordered blocks Hg) as [Hs Hne].
  split; [intros b; apply deduplicate_In|]. split; [exact Hs|].
  split.
  - now apply deduplicate_ordered_id.
  - intros Hs'. now apply deduplicate_ordered_id.
Qed.

Lemma deduplicate_blocks_stable_witness :
  _deduplicate_blocks
    (_deduplicate_blocks
       [mkBlock 3 8 [] [] [] []; mkBlock 0 5 [] [] [] [];
        mkBlock 9 12 [] [] [] []; mkBlock 4 6 [] [] [] []])
  = _deduplicate_blocks
      [mkBlock 3 8 [] [] [] []; mkBlock 0 5 [] [] [] [];
       mkBlock 9 12 [] [] [] []; mkBlock 4 6 [] [] [] []].
Proof.
  apply (deduplicate_blocks_stable
           [mkBlock 3 8 [] [] [] []; mkBlock 0 5 [] [] [] [];
            mkBlock 9 12 [] [] [] []; mkBlock 4 6 [] [] [] []]).
  repeat constructor.
Defined.

(* ================================================================= *)
(** ** Escaping HTML *)

Lemma replace_char_app (old : ascii) (new a b : str) :
  replace_char old new (a ++ b)
  = replace_char old new a ++ replace_char old new b.
Proof. unfold replace_char. apply flat_map_app. Qed.

Lemma escape_char_cases (c : ascii) :
  (c = "&"%char /\ escape_char c = py "&amp;") \/
  (c = "<"%char /\ escape_char c = py "&lt;") \/
  (c = ">"%char /\ escape_char c = py "&gt;") \/
  (c <> "&"%char /\ c <> "<"%char /\ c <> ">"%char /\ escape_char c = [c]).
Proof.
  unfold escape_char.
  destruct (Ascii.eqb c "&"%char) eqn:E1.
  { apply ascii_eqb_true in E1. now left. }
  destruct (Ascii.eqb c "<"%char) eqn:E2.
  { apply ascii_eqb_true in E2. right. now left. }
  destruct (Ascii.eqb c ">"%char) eqn:E3.
  { apply ascii_eqb_true in E3. right. right. now left. }
  right. right. right.
  repeat split; try reflexivity; intros ->; discriminate.
Qed.

(** The three replacements amount to one pass over the text: what an
    earlier replacement has put in is not touched by a later one. *)
Lemma escape_html_one_pass (text : str) :
  _escape_html text = flat_map escape_char text.
Proof.
  unfold _escape_html. induction text as [|c text IH]; [reflexivity|].
  change (replace_char "&"%char (py "&amp;") (c :: text))
    with ((if Ascii.eqb c "&"%char then py "&amp;" else [c])
          ++ replace_char "&"%char (py "&amp;") text).
  rewrite !replace_char_app, IH. cbn [flat_map]. f_equal.
  destruct (escape_char_cases c)
    as [[-> E] | [[-> E] | [[-> E] | [H1 [H2 [H3 E]]]]]];
    rewrite E; try reflexivity.
  apply Ascii.eqb_neq in H1, H2, H3. rewrite H1.
  unfold replace_char. cbn [flat_map app]. rewrite H2.
  cbn [flat_map app]. now rewrite H3.
Qed.

(** X9: escaping leaves no [<] and no [>] in the text, changes nothing in
    a text that holds none of the three special characters, and never
    gives one result for two different texts. *)
Theorem escape_html_safe (text other : str) :
  ~ In "<"%char (_escape_html text) /\
  ~ In ">"%char (_escape_html text) /\
  ((~ In "&"%char text /\ ~ In "<"%char text /\ ~ In ">"%char text) ->
   _escape_html text = text) /\
  (_escape_html text = _escape_html other -> text = other).
Proof.
  rewrite !escape_html_one_pass.
  split; [|split; [|split]].
  - intros H. apply in_flat_map in H. destruct H as [c [_ Hc]].
    destruct (escape_char_cases c) as [[_ E] | [[_ E] | [[_ E] | [_ [Hn [_ E]]]]]];
      rewrite E in Hc; simpl in Hc; intuition (try discriminate; congruence).
  - intros H. apply in_flat_map in H. destruct H as [c [_ Hc]].
    destruct (escape_char_cases c) as [[_ E] | [[_ E] | [[_ E] | [_ [_ [Hn E]]]]]];
      rewrite E in Hc; simpl in Hc; intuition (try discriminate; congruence).
  - intros [Ha [Hl Hg]]. induction text as [|c text IH]; [reflexivity|].
    cbn [flat_map].
    destruct (escape_char_cases c) as [[-> _] | [[-> _] | [[-> _] | [_ [_ [_ E]]]]]].
    + exfalso. apply Ha. now left.
    + exfalso. apply Hl. now left.
    + exfalso. apply Hg. now left.
    + rewrite E, IH; [reflexivity | | |]; intros H;
        [apply Ha | apply Hl | apply Hg]; now right.
  - revert other.
    induction text as [|c text IH]; intros other H.
    + destruct other as [|d other]; [reflexivity|]. cbn [flat_map] in H.
      destruct (escape_char_cases d) as [[_ E] | [[_ E] | [[_ E] | [_ [_ [_ E]]]]]];
        rewrite E in H; discriminate.
    + destruct other as [|d other].
      * cbn [flat_map] in H.
        destruct (escape_char_cases c) as [[_ E] | [[_ E] | [[_ E] | [_ [_ [_ E]]]]]];
          rewrite E in H; discriminate.
      * cbn [flat_map] in H.
        destruct (escape_char_cases c)
          as [[Hc E] | [[Hc E] | [[Hc E] | [Hc1 [Hc2 [Hc3 E]]]]]];
          destruct (escape_char_cases d)
            as [[Hd E'] | [[Hd E'] | [[Hd E'] | [Hd1 [Hd2 [Hd3 E']]]]]];
          rewrite E, E' in H; simpl in H; try discriminate;
          injection H; intros; subst; try congruence;
          f_equal; apply IH; assumption.
Qed.

(* ================================================================= *)
(** ** The statistics and the processed blocks *)

Section PipelineFacts.

Variable mermaid_tool : nat -> str -> str -> option str.
Variable plantuml_tool : nat -> str -> str -> option str.
Variable dot_tool : nat -> str -> str -> option str.
Variable output_format : str.

Local Abbreviation entry :=
  (processed_of mermaid_tool plantuml_tool dot_tool output_format).

Lemma process_block_eq (st : Stats * list Processed) (ib : nat * Block) :
  let pb := entry ib in
  process_block mermaid_tool plantuml_tool dot_tool output_format st ib =
  (mkStats (total_blocks (fst st))
           (validated_blocks (fst st) + 1)
           (fixed_blocks (fst st) + count_if has_issues [pb])
           (rendered_blocks (fst st) + count_if is_rendered [pb])
           (failed_blocks (fst st) + count_if (fun p => negb (is_rendered p)) [pb])
           (stats_issues (fst st) ++ map (block_issue (fst ib)) (pb_issues pb)),
   snd st ++ [pb]).
Proof.
  destruct st as [stats pbs], ib as [idx block].
  unfold process_block, processed_of. cbn [fst snd].
  destruct (validate_and_fix (code block) (language block)) as [fc iss].
  destruct (negb (str_eqb (language block) (py "unknown"))).
  - set (rp := render mermaid_tool plantuml_tool dot_tool output_format
                      idx fc (language block)).
    destruct (truthy rp) eqn:E; destruct iss;
      unfold count_if, has_issues, is_rendered; simpl; rewrite ?E; simpl;
      rewrite ?Nat.add_0_r, ?app_nil_r; reflexivity.
  - destruct iss; unfold count_if, has_issues, is_rendered; simpl;
      rewrite ?Nat.add_0_r, ?app_nil_r; reflexivity.
Qed.

Lemma count_if_app {A : Type} (f : A -> bool) (l1 l2 : list A) :
  count_if f (l1 ++ l2) = count_if f l1 + count_if f l2.
Proof. unfold count_if. now rewrite filter_app, length_app. Qed.

Lemma process_loop (ibs : list (nat * Block)) (st : Stats * list Processed) :
  let res := fold_left
               (process_block mermaid_tool plantuml_tool dot_tool output_format)
               ibs st in
  let new := map entry ibs in
  snd res = snd st ++ new /\
  total_blocks (fst res) = total_blocks (fst st) /\
  validated_blocks (fst res) = validated_blocks (fst st) + length ibs /\
  fixed_blocks (fst res) = fixed_blocks (fst st) + count_if has_issues new /\
  rendered_blocks (fst res)
    = rendered_blocks (fst st) + count_if is_rendered new /\
  failed_blocks (fst res)
    = failed_blocks (fst st) + count_if (fun p => negb (is_rendered p)) new /\
  length (stats_issues (fst res))
    = length (stats_issues (fst st))
      + list_sum (map (fun p => length (pb_issues p)) new).
Proof.
  revert st. induction ibs as [|ib ibs IH]; intros st; cbv zeta.
  - cbn [fold_left map length list_sum]. unfold count_if. cbn [filter length].
    rewrite app_nil_r, !Nat.add_0_r. repeat split; reflexivity.
  - cbn [fold_left map].
    pose proof (IH (process_block mermaid_tool plantuml_tool dot_tool
                      output_format st ib)) as H.
    cbv zeta in H. rewrite (process_block_eq st ib) in H. cbv zeta in H.
    cbn [fst snd total_blocks validated_blocks fixed_blocks rendered_blocks
         failed_blocks stats_issues] in H.
    destruct H as [H1 [H2 [H3 [H4 [H5 [H6 H7]]]]]].
    rewrite (process_block_eq st ib). cbv zeta.
    rewrite H1, H2, H3, H4, H5, H6, H7.
    change (entry ib :: map entry ibs)
      with ([entry ib] ++ map entry ibs).
    rewrite !count_if_app, length_app, length_map.
    rewrite <- app_assoc. cbn [length list_sum map app].
    repeat split; try lia.
    match goal with
    | |- context [list_sum (?a :: ?l)] =>
        change (list_sum (a :: l)) with (a + list_sum l)
    end.
    lia.
Qed.

Lemma map_original_processed (bs : list Block) (n : nat) :
  map original (map entry (combine (seq n (length bs)) bs)) = bs.
Proof.
  revert n. induction bs as [|b bs IH]; intros n; [reflexivity|].
  cbn [length seq combine map]. rewrite IH. f_equal.
  unfold processed_of. cbn [snd].
  now destruct (validate_and_fix (code b) (language b)).
Qed.

Lemma process_eq (input_text : str) :
  snd (process mermaid_tool plantuml_tool dot_tool output_format input_text)
  = map entry (enumerate (detect_blocks input_text)).
Proof.
  unfold process.
  pose proof (process_loop (enumerate (detect_blocks input_text))
                (mkStats (length (detect_blocks input_text)) 0 0 0 0 [], []))
    as H.
  cbv zeta in H. destruct H as [H _]. exact H.
Qed.

Lemma count_if_complement {A : Type} (f : A -> bool) (l : list A) :
  count_if f l + count_if (fun x => negb (f x)) l = length l.
Proof.
  unfold count_if. induction l as [|x l IH]; [reflexivity|].
  simpl. destruct (f x); simpl; lia.
Qed.

(** X10: the statistics of [process] add up.  Every detected block is
    validated and kept, in order, in [processed_blocks]; it counts as
    rendered or as failed, never as both; [fixed_blocks] counts the blocks
    with at least one issue, [rendered_blocks] those with a rendered path,
    and the list of issues has one entry for each issue of each block. *)
Theorem process_stats_add_up (input_text : str) :
  let res :=
    process mermaid_tool plantuml_tool dot_tool output_format input_text in
  let stats := fst res in
  let processed_blocks := snd res in
  map original processed_blocks = detect_blocks input_text /\
  total_blocks stats = length (detect_blocks input_text) /\
  validated_blocks stats = total_blocks stats /\
  rendered_blocks stats + failed_blocks stats = total_blocks stats /\
  fixed_blocks stats = count_if has_issues processed_blocks /\
  rendered_blocks stats = count_if is_rendered processed_blocks /\
  length (stats_issues stats)
    = list_sum (map (fun p => length (pb_issues p)) processed_blocks).
Proof.
  cbv zeta. rewrite process_eq. unfold process.
  pose proof (process_loop (enumerate (detect_blocks input_text))
                (mkStats (length (detect_blocks input_text)) 0 0 0 0 [], []))
    as H.
  cbv zeta in H. cbn [fst snd total_blocks validated_blocks fixed_blocks
    rendered_blocks failed_blocks stats_issues length app] in H.
  destruct H as [_ [H2 [H3 [H4 [H5 [H6 H7]]]]]].
  rewrite H2, H3, H4, H5, H6, H7.
  pose proof (count_if_complement is_rendered
                (map entry (enumerate (detect_blocks input_text))))
    as Hc.
  rewrite length_map in Hc. unfold enumerate in *.
  rewrite length_combine, length_seq, Nat.min_id in *.
  split; [apply map_original_processed|].
  repeat split; lia.
Qed.

End PipelineFacts.
(* ================================================================= *)
(** ** The processed blocks and the Markdown document *)

Lemma validate_and_fix_passes (code language : str) :
  str_eqb language (py "mermaid") = false ->
  str_eqb language (py "plantuml") = false ->
  str_eqb language (py "dot") = false ->
  validate_and_fix code language = (code, []).
Proof. intros Hm Hp Hd. unfold validate_and_fix. now rewrite Hm, Hp, Hd. Qed.

Lemma detect_blocks_wf (text : str) :
  StronglySorted before (detect_blocks text) /\
  Forall (well_spanned text) (detect_blocks text).
Proof.
  unfold detect_blocks.
  match goal with
  | |- StronglySorted _ (_deduplicate_blocks ?l) /\ _ => set (blocks := l)
  end.
  assert (Hs : forall b, In b blocks -> well_spanned text b).
  { intros b Hb. unfold blocks in Hb. rewrite <- app_assoc in Hb.
    exact (candidates_spanned text b Hb). }
  split.
  - apply deduplicate_ordered. rewrite Forall_forall. intros b Hb.
    exact (proj1 (Hs b Hb)).
  - rewrite Forall_forall. intros b Hb. apply Hs.
    now apply deduplicate_In.
Qed.

Lemma sorted_chained (text : str) (bs : list Block) (last_pos : nat) :
  StronglySorted before bs ->
  Forall (well_spanned text) bs ->
  Forall (fun b => last_pos <= start_pos b) bs ->
  chained text last_pos bs.
Proof.
  revert last_pos. induction bs as [|b bs IH]; intros last_pos Hs Hw Hl.
  - exact I.
  - inversion Hs as [|? ? Hs' Hb]; subst.
    inversion Hw as [|? ? [H1 [H2 H3]] Hw']; subst.
    inversion Hl as [|? ? Hl1 _]; subst.
    cbn [chained]. split; [exact Hl1|]. split; [lia|].
    split; [exact H2|]. split; [exact H3|].
    apply IH; [exact Hs'|exact Hw'|].
    rewrite Forall_forall in *. intros y Hy. exact (Hb y Hy).
Qed.

Lemma detect_blocks_chained (text : str) :
  chained text 0 (detect_blocks text).
Proof.
  destruct (detect_blocks_wf text) as [Hs Hw].
  apply sorted_chained; auto.
  rewrite Forall_forall. intros; lia.
Qed.

Lemma insert_by_start_head (x : Processed) (l : list Processed) :
  Forall (fun y => start_pos (original x) <= start_pos (original y)) l ->
  insert_by_start x l = x :: l.
Proof.
  intros H. destruct l as [|y l]; [reflexivity|].
  inversion H as [|? ? Hy _]; subst. cbn [insert_by_start].
  apply Nat.leb_le in Hy. now rewrite Hy.
Qed.

Lemma chained_starts (text : str) (bs : list Block) (last_pos : nat) :
  chained text last_pos bs ->
  Forall (fun b => last_pos <= start_pos b) bs.
Proof.
  revert last_pos. induction bs as [|b bs IH]; intros last_pos H.
  - constructor.
  - destruct H as [H1 [H2 [H3 [H4 H5]]]]. constructor; [exact H1|].
    apply IH in H5. rewrite Forall_forall in *. intros y Hy.
    specialize (H5 y Hy). lia.
Qed.

Lemma sorted_by_start_chained (text : str) (pbs : list Processed)
    (last_pos : nat) :
  chained text last_pos (map original pbs) ->
  sorted_by_start pbs = pbs.
Proof.
  revert last_pos. induction pbs as [|pb pbs IH]; intros last_pos H.
  - reflexivity.
  - cbn [map chained] in H. destruct H as [H1 [H2 [H3 [H4 H5]]]].
    unfold sorted_by_start in *. cbn [fold_right].
    rewrite (IH _ H5). apply insert_by_start_head.
    apply chained_starts in H5. rewrite Forall_map in H5.
    rewrite Forall_forall in *. intros y Hy. specialize (H5 y Hy).
    cbn beta in H5. lia.
Qed.

Lemma skipn_slice (text : str) (a b : nat) :
  a <= b -> b <= length text ->
  skipn a text = slice text a b ++ skipn b text.
Proof.
  intros Hab Hb. unfold slice.
  replace (skipn b text) with (skipn (b - a) (skipn a text)).
  - now rewrite firstn_skipn.
  - rewrite skipn_skipn. f_equal. lia.
Qed.

Lemma markdown_loop (text : str) (pbs : list Processed)
    (parts : list str) (last_pos : nat) :
  chained text last_pos (map original pbs) ->
  exists ps,
    length ps = S (length pbs) /\
    skipn last_pos text
      = weave ps (map (fun pb => original_text (original pb)) pbs) /\
    (let (result_parts, last) :=
       fold_left (markdown_step text) pbs (parts, last_pos) in
     concat (result_parts ++ [skipn last text]))
      = concat parts ++ weave ps (map markdown_piece pbs).
Proof.
  revert parts last_pos.
  induction pbs as [|pb pbs IH]; intros parts last_pos H.
  - exists [skipn last_pos text]. cbn [fold_left map weave length].
    repeat split. rewrite concat_app. cbn [concat]. now rewrite app_nil_r.
  - cbn [map chained] in H. destruct H as [H1 [H2 [H3 [H4 H5]]]].
    cbn [fold_left]. unfold markdown_step at 2.
    set (parts' :=
           match pb_issues pb with
           | [] => parts ++ [slice text last_pos (start_pos (original pb))]
           | _ :: _ =>
               (parts ++ [slice text last_pos (start_pos (original pb))])
                 ++ [fixed_comment pb]
           end ++ [fenced_code pb]).
    destruct (IH parts' (end_pos (original pb)) H5) as [ps [Hl [Ht Ho]]].
    exists (slice text last_pos (start_pos (original pb)) :: ps).
    cbn [length map weave]. split; [now rewrite Hl|]. split.
    + rewrite <- Ht, <- H4.
      rewrite (skipn_slice text last_pos (start_pos (original pb))) by lia.
      f_equal.
      apply (skipn_slice text (start_pos (original pb))
               (end_pos (original pb))); lia.
    + rewrite Ho. unfold parts', markdown_piece.
      destruct (pb_issues pb); rewrite !concat_app; cbn [concat];
        rewrite ?app_nil_r, <- ?app_assoc; reflexivity.
Qed.

Section Document.

Variable mermaid_tool : nat -> str -> str -> option str.
Variable plantuml_tool : nat -> str -> str -> option str.
Variable dot_tool : nat -> str -> str -> option str.
Variable output_format : str.

(** X11: what [process] keeps for a block.  Its entry holds a detected
    block with the outcome of [validate_and_fix] on its code and language.
    A block whose language is none of [mermaid], [plantuml] and [dot]
    keeps its code, has no issue and is never rendered; so only blocks of
    these three languages can have a rendered path. *)
Theorem process_keeps_other_languages (input_text : str) (pb : Processed) :
  In pb (snd (process mermaid_tool plantuml_tool dot_tool output_format
                      input_text)) ->
  In (original pb) (detect_blocks input_text) /\
  validate_and_fix (code (original pb)) (language (original pb))
    = (fixed_code pb, pb_issues pb) /\
  (language (original pb) <> py "mermaid" ->
   language (original pb) <> py "plantuml" ->
   language (original pb) <> py "dot" ->
   fixed_code pb = code (original pb) /\ pb_issues pb = [] /\
   rendered_path pb = None) /\
  (forall path, rendered_path pb = Some path ->
     language (original pb) = py "mermaid" \/
     language (original pb) = py "plantuml" \/
     language (original pb) = py "dot").
Proof.
  intros H. rewrite process_eq in H. apply in_map_iff in H.
  destruct H as [[idx b] [Hpb Hin]].
  assert (Hb : In b (detect_blocks input_text)).
  { unfold enumerate in Hin. now apply in_combine_r in Hin. }
  unfold processed_of in Hpb. cbn [fst snd] in Hpb.
  destruct (validate_and_fix (code b) (language b)) as [fc iss] eqn:Ev.
  subst pb. cbn [original fixed_code pb_issues rendered_path].
  split; [exact Hb|]. split; [exact Ev|]. split.
  - intros Hm Hp Hd. apply str_eqb_false in Hm, Hp, Hd.
    rewrite (validate_and_fix_passes _ _ Hm Hp Hd) in Ev.
    injection Ev as <- <-. repeat split.
    unfold render. rewrite Hm, Hp, Hd. now destruct (negb _).
  - intros path Hpath.
    destruct (str_eqb (language b) (py "mermaid")) eqn:Em;
      [left; now apply str_eqb_true|].
    destruct (str_eqb (language b) (py "plantuml")) eqn:Ep;
      [right; left; now apply str_eqb_true|].
    destruct (str_eqb (language b) (py "dot")) eqn:Ed;
      [right; right; now apply str_eqb_true|].
    unfold render in Hpath. rewrite Em, Ep, Ed in Hpath.
    now destruct (negb _).
Qed.

(** X12: the Markdown document is the input text with every detected
    block replaced, in place, by its fenced fixed code (after a comment
    that counts the issues, when there are some); the text outside the
    blocks is kept as it is, none of it is lost or repeated.  With no
    block detected the document is the input text. *)
Theorem markdown_replaces_blocks (input_text : str) :
  let processed_blocks :=
    snd (process mermaid_tool plantuml_tool dot_tool output_format
                 input_text) in
  (exists ps,
     length ps = S (length processed_blocks) /\
     input_text
       = weave ps (map (fun pb => original_text (original pb))
                       processed_blocks) /\
     _generate_markdown_output input_text processed_blocks
       = weave ps (map markdown_piece processed_blocks)) /\
  (detect_blocks input_text = [] ->
   _generate_markdown_output input_text processed_blocks = input_text).
Proof.
  cbv zeta.
  set (pbs := snd (process mermaid_tool plantuml_tool dot_tool output_format
                           input_text)).
  assert (Ho : map original pbs = detect_blocks input_text).
  { unfold pbs. rewrite process_eq. unfold enumerate.
    apply map_original_processed. }
  assert (Hc : chained input_text 0 (map original pbs)).
  { rewrite Ho. apply detect_blocks_chained. }
  assert (Hx : exists ps,
     length ps = S (length pbs) /\
     input_text
       = weave ps (map (fun pb => original_text (original pb)) pbs) /\
     _generate_markdown_output input_text pbs
       = weave ps (map markdown_piece pbs)).
  { destruct (markdown_loop input_text pbs [] 0 Hc) as [ps [Hl [Ht Hout]]].
    exists ps. split; [exact Hl|]. split; [exact Ht|].
    unfold _generate_markdown_output.
    rewrite (sorted_by_start_chained input_text pbs 0 Hc). exact Hout. }
  split; [exact Hx|].
  intros He. rewrite He in Ho. destruct pbs; [|discriminate].
  unfold _generate_markdown_output, sorted_by_start.
  cbn [fold_right fold_left app concat skipn]. apply app_nil_r.
Qed.

End Document.

Lemma process_keeps_other_languages_witness :
  let b := mkBlock 0 20 (py "python") (py "x = [1") (py "```python\nx = [1\n```")
                   (py "standard") in
  In b (detect_blocks (py "```python\nx = [1\n```")) /\
  validate_and_fix (py "x = [1") (py "python") = (py "x = [1", []).
Proof.
  cbv zeta.
  refine (let H := process_keeps_other_languages
                     (fun _ _ _ => None) (fun _ _ _ => None)
                     (fun _ _ _ => None) (py "png")
                     (py "```python\nx = [1\n```")
                     (mkProcessed
                        (mkBlock 0 20 (py "python") (py "x = [1")
                                 (py "```python\nx = [1\n```") (py "standard"))
                        (py "x = [1") [] None) _ in
          conj (proj1 H) (proj1 (proj2 H))).
  vm_compute. left. reflexivity.
Defined.

(* ================================================================= *)
(** ** Repair never raises *)

(** A pattern that is one capturing group records the span of the whole
    match as that group. *)
Lemma whole_group_recorded (ic : bool) (n : nat) (r : regex) (s : str)
    (pos : nat) (m : Match) :
  match_at ic (Grp n r) s pos = Some m ->
  lookup n (m_groups m) = Some (m_start m, m_end m).
Proof.
  unfold match_at. cbn [rmatch].
  match goal with
  | |- context [rmatch ic r s pos [] ?k] =>
      destruct (rmatch ic r s pos [] k) as [[e g]|] eqn:E; [|discriminate]
  end.
  intros H. injection H as <-. cbn [m_start m_end m_groups].
  apply (rmatch_sound ic 0) in E.
  destruct E as [j [g' [_ [_ [_ H]]]]].
  unfold accept in H. injection H as <- <-.
  cbn [lookup]. now rewrite Nat.eqb_refl.
Qed.

Lemma edge_split_group (text : str) (m : Match) :
  In m (finditer false edge_split text) ->
  group text m 1 = Some (group0 text m).
Proof.
  intros H. apply finditer_In in H. destruct H as [d [_ H]].
  unfold edge_split in H. apply whole_group_recorded in H.
  unfold group, group0. now rewrite H.
Qed.

Lemma split_pieces_strings (text : str) (ms : list Match) (last : nat) :
  Forall (fun m => group text m 1 = Some (group0 text m)) ms ->
  Raising.split_pieces text ms last = map Some (split_pieces text ms last).
Proof.
  revert last. induction ms as [|m ms IH]; intros last H.
  - reflexivity.
  - inversion H as [|? ? Hm Hms]; subst.
    cbn [Raising.split_pieces split_pieces map]. now rewrite Hm, IH.
Qed.

(** No part that [re.split] hands to the loop over [parts] is [None]. *)
Lemma edge_split_strings (line : str) :
  Raising.re_split false edge_split line
  = map Some (re_split false edge_split line).
Proof.
  unfold Raising.re_split, re_split. apply split_pieces_strings.
  rewrite Forall_forall. intros m Hm. now apply edge_split_group.
Qed.

Lemma for_all_strings (parts : list str) :
  Raising.for_all Raising.clean_part (map Some parts)
  = Ok (map (fun part =>
               if existsb (str_eqb part) edge_tokens then part
               else re_sub_empty false bad_run part) parts).
Proof.
  induction parts as [|p parts IH]; [reflexivity|].
  cbn [map Raising.for_all]. rewrite IH.
  unfold Raising.clean_part, Raising.re_sub_empty.
  now destruct (existsb (str_eqb p) edge_tokens).
Qed.

Lemma clean_node_ids_returns (line : str) :
  Raising.clean_node_ids line = Ok (clean_node_ids line).
Proof.
  unfold Raising.clean_node_ids, clean_node_ids.
  destruct (contains (py "-->") line || contains (py "---") line);
    [|reflexivity].
  now rewrite edge_split_strings, for_all_strings.
Qed.

Lemma fix_mermaid_line_returns (st : list str * list str) (il : nat * str) :
  Raising.fix_mermaid_line st il = Ok (fix_mermaid_line st il).
Proof.
  destruct st as [issues fixed_lines], il as [i line0].
  unfold Raising.fix_mermaid_line, fix_mermaid_line.
  now rewrite clean_node_ids_returns.
Qed.

Lemma for_each_returns {S A : Type} (f : S -> A -> result S)
    (g : S -> A -> S) (l : list A) (st : S) :
  (forall st a, f st a = Ok (g st a)) ->
  Raising.for_each f l st = Ok (fold_left g l st).
Proof.
  intros H. revert st. induction l as [|a l IH]; intros st; [reflexivity|].
  cbn [Raising.for_each fold_left]. rewrite H. apply IH.
Qed.

Lemma fix_mermaid_returns (code : str) :
  Raising._fix_mermaid code = Ok (_fix_mermaid code).
Proof.
  unfold Raising._fix_mermaid, _fix_mermaid.
  rewrite (for_each_returns _ fix_mermaid_line)
    by apply fix_mermaid_line_returns.
  cbn [Raising.bind].
  destruct (fold_left fix_mermaid_line (enumerate (split nl code)) ([], []))
    as [issues fixed_lines].
  now destruct (negb _).
Qed.

(** The exception is within reach of the loop over [parts]: with a
    pattern whose group takes no part in some match, [re.split] leaves a
    [None] and the cleaning raises. *)
Lemma clean_part_can_raise :
  Raising.for_all Raising.clean_part
    (Raising.re_split false (Alt (Grp 1 (lit (py "-->"))) (lit (py "---")))
                      (py "a---b"))
  = Raise TypeError.
Proof. vm_compute. reflexivity. Qed.

(** C9: [validate_and_fix] never raises.  For every code and every
    language tag the run with the exceptions ends normally, and what it
    returns is the result of the repair as embedded without them; for a
    tag other than [mermaid], [plantuml] and [dot] this is the code,
    unchanged, with no issue.  The one exception that the repairs could
    raise is the [TypeError] of [re.sub] on a part that [re.split] left as
    [None]; there is no such part, since the pattern of the edges is one
    group that takes part in every match. *)
Theorem validate_and_fix_never_raises (code language : str) :
  Raising.validate_and_fix code language
    = Ok (validate_and_fix code language) /\
  (language <> py "mermaid" ->
   language <> py "plantuml" ->
   language <> py "dot" ->
   Raising.validate_and_fix code language = Ok (code, [])).
Proof.
  split.
  - unfold Raising.validate_and_fix, validate_and_fix.
    destruct (str_eqb language (py "mermaid"));
      [apply fix_mermaid_returns|].
    destruct (str_eqb language (py "plantuml")); [reflexivity|].
    destruct (str_eqb language (py "dot")); reflexivity.
  - intros Hm Hp Hd. apply str_eqb_false in Hm, Hp, Hd.
    unfold Raising.validate_and_fix. now rewrite Hm, Hp, Hd.
Qed.

Lemma validate_and_fix_never_raises_witness :
  Raising.validate_and_fix (py "x = [1, 2") (py "unknown")
    = Ok (py "x = [1, 2", []) /\
  Raising.validate_and_fix (py "A -->|go!| B{x") (py "mermaid")
    = Ok (py "graph TD\nA -->go B{x]",
          [py "Line 1: Unbalanced brackets - attempting to fix";
           py "Missing graph type declaration - adding 'graph TD'"]).
Proof.
  split.
  - apply (proj2 (validate_and_fix_never_raises (py "x = [1, 2")
                    (py "unknown"))); vm_compute; discriminate.
  - etransitivity.
    + apply (proj1 (validate_and_fix_never_raises (py "A -->|go!| B{x")
                      (py "mermaid"))).
    + vm_compute. reflexivity.
Defined.
